(** * TidalSearch (src/tidal/tidalsearch.cpp): search orchestration and
      thumbnail bookkeeping of the Tidal search engine of Strawberry.

    The class is a single-threaded Qt object.  Its member functions are
    embedded below as functions on an explicit object state; the signals it
    emits and the calls it makes to its collaborators are collected in a log.
    Values returned by collaborators (timer ids, backend correlation ids,
    loader ids) are inputs of the operation that receives them. *)

From Stdlib Require Import ZArith List String Ascii Bool Lia.
Import ListNotations.
Local Open Scope Z_scope.

(* ================================================================== *)
(** ** Machine integers *)

(** C++ [int] is a 32-bit two's complement integer, kept in [Z]. *)
Definition INT_MAX : Z := 2147483647.

Definition wrap_int (z : Z) : Z := (z + 2147483648) mod 4294967296 - 2147483648.

(** [n++] on an [int]: the incremented value, wrapped to 32 bits. *)
Definition int_succ (n : Z) : Z := wrap_int (n + 1).

(* ================================================================== *)
(** ** QString

    A [QString] is a [string]; characters are restricted to the 8-bit range,
    where [QChar::isSpace] holds for U+0009..U+000D, U+0020, U+0085 and
    U+00A0. *)

Definition QString := string.

Definition dquote : ascii := ascii_of_nat 34.
Definition lparen : ascii := ascii_of_nat 40.
Definition rparen : ascii := ascii_of_nat 41.
Definition colon_char : ascii := ascii_of_nat 58.

Definition isSpace (c : ascii) : bool :=
  let n := Z.of_nat (nat_of_ascii c) in
  ((9 <=? n) && (n <=? 13)) || (n =? 32) || (n =? 133) || (n =? 160).

(** [QString::remove(QChar)]: every occurrence of the character goes. *)
Fixpoint QString_remove_char (c : ascii) (s : QString) : QString :=
  match s with
  | EmptyString => EmptyString
  | String a s' =>
      if Ascii.eqb a c then QString_remove_char c s'
      else String a (QString_remove_char c s')
  end.

(** [QString::indexOf]: position of the first occurrence, or -1. *)
Fixpoint QString_indexOf (c : ascii) (s : QString) : Z :=
  match s with
  | EmptyString => -1
  | String a s' =>
      if Ascii.eqb a c then 0
      else let i := QString_indexOf c s' in
           if i =? -1 then -1 else i + 1
  end.

Fixpoint QString_drop (n : nat) (s : QString) : QString :=
  match n, s with
  | O, _ => s
  | S _, EmptyString => EmptyString
  | S n', String _ s' => QString_drop n' s'
  end.

Fixpoint QString_take (n : nat) (s : QString) : QString :=
  match n, s with
  | O, _ => EmptyString
  | S _, EmptyString => EmptyString
  | S n', String a s' => String a (QString_take n' s')
  end.

Definition QString_size (s : QString) : Z := Z.of_nat (String.length s).

(** [QString::remove(int pos, int len)]: a negative position counts from the
    end; a position outside the string changes nothing; a length reaching
    past the end truncates. *)
Definition QString_remove (pos len : Z) (s : QString) : QString :=
  let pos := if pos <? 0 then pos + QString_size s else pos in
  if (pos <? 0) || (QString_size s <=? pos) then s
  else if QString_size s - pos <=? len then QString_take (Z.to_nat pos) s
  else if 0 <? len then
         String.append (QString_take (Z.to_nat pos) s)
                       (QString_drop (Z.to_nat (pos + len)) s)
       else s.

Fixpoint QString_rev_onto (s acc : QString) : QString :=
  match s with
  | EmptyString => acc
  | String a s' => QString_rev_onto s' (String a acc)
  end.

(** [QString::split(QRegExp("\\s+"))] with the default [KeepEmptyParts]: the
    string is cut at every maximal run of whitespace; the piece before a
    leading run and the piece after a trailing run are kept, empty as they
    are.  [cur] is the piece being read, reversed; [in_run] says that the
    previous character was whitespace. *)
Fixpoint split_go (s : QString) (cur : QString) (in_run : bool)
  : list QString :=
  match s with
  | EmptyString => [QString_rev_onto cur EmptyString]
  | String c s' =>
      if isSpace c then
        if in_run then split_go s' EmptyString true
        else QString_rev_onto cur EmptyString :: split_go s' EmptyString true
      else split_go s' (String c cur) false
  end.

Definition QString_split_whitespace (s : QString) : list QString :=
  split_go s EmptyString false.

(* ================================================================== *)
(** ** TokenizeQuery (tidalsearch.cpp, lines 83-100) *)

(** The body of the loop over the tokens. *)
Definition clean_token (tok : QString) : QString :=
  let tok := QString_remove_char lparen tok in
  let tok := QString_remove_char rparen tok in
  let tok := QString_remove_char dquote tok in
  let colon := QString_indexOf colon_char tok in
  if negb (colon =? -1) then QString_remove 0 (colon + 1) tok else tok.

Definition TokenizeQuery (query : QString) : list QString :=
  map clean_token (QString_split_whitespace query).

(** The example query of the specification: artist:Daft "Punk" *)
Definition daft_punk_query : QString :=
  String.append "artist:Daft "
    (String dquote (String.append "Punk" (String dquote EmptyString))).

(** Helpers for stating what the tokenizer does. *)
Fixpoint QString_all (p : ascii -> bool) (s : QString) : bool :=
  match s with
  | EmptyString => true
  | String a s' => p a && QString_all p s'
  end.

Fixpoint QString_filter (p : ascii -> bool) (s : QString) : QString :=
  match s with
  | EmptyString => EmptyString
  | String a s' =>
      if p a then String a (QString_filter p s') else QString_filter p s'
  end.

Definition QString_concat (l : list QString) : QString :=
  fold_right String.append EmptyString l.

Definition not_space (c : ascii) : bool := negb (isSpace c).

Definition not_bracket_or_quote (c : ascii) : bool :=
  negb (Ascii.eqb c lparen) && negb (Ascii.eqb c rparen)
  && negb (Ascii.eqb c dquote).

Definition strip (tok : QString) : QString :=
  QString_remove_char dquote
    (QString_remove_char rparen (QString_remove_char lparen tok)).

(** Number of maximal whitespace runs of a string; [in_run] says that the
    previous character was whitespace. *)
Fixpoint whitespace_runs (s : QString) (in_run : bool) : nat :=
  match s with
  | EmptyString => O
  | String c s' =>
      if isSpace c then
        (if in_run then O else 1%nat) + whitespace_runs s' true
      else whitespace_runs s' false
  end.

(** [Matches] (lines 102-112); [contains] is the case-insensitive substring
    test of [QString], which compares characters after case folding.  In
    the 8-bit range folding maps A..Z and the accented capitals U+00C0..
    U+00DE, the sign U+00D7 apart, to the letter 32 places up; the micro
    sign, which Qt folds to a letter outside the range that no other
    character of the range folds to, stays as it is. *)
Definition to_lower (c : ascii) : ascii :=
  let n := nat_of_ascii c in
  if ((65 <=? n) && (n <=? 90))%nat then ascii_of_nat (n + 32)
  else if ((192 <=? n) && (n <=? 222) && negb (n =? 215))%nat
       then ascii_of_nat (n + 32)
       else c.

Fixpoint lower (s : QString) : QString :=
  match s with
  | EmptyString => EmptyString
  | String a s' => String (to_lower a) (lower s')
  end.

Fixpoint QString_contains_at (s : QString) (token : QString) : bool :=
  String.prefix token s
  || match s with
     | EmptyString => false
     | String _ s' => QString_contains_at s' token
     end.

Definition QString_contains_ci (s token : QString) : bool :=
  QString_contains_at (lower s) (lower token).

Definition Matches (tokens : list QString) (str : QString) : bool :=
  forallb (fun token => QString_contains_ci str token) tokens.

(* ================================================================== *)
(** ** QMap<int, T>

    A [QMap] keeps its items in ascending key order, one item per key here
    (nothing in the class uses [insertMulti]).  It is a key-sorted
    association list; iteration order is list order. *)

Section QMapOps.
Context {V : Type}.

Definition QMap := list (Z * V).

(** [m[k] = v] and [insert(k, v)]: the value of an existing key is
    replaced, a new key is put at its sorted position. *)
Fixpoint qmap_insert (k : Z) (v : V) (m : QMap) : QMap :=
  match m with
  | [] => [(k, v)]
  | (k', v') :: m' =>
      if k <? k' then (k, v) :: m
      else if k =? k' then (k, v) :: m'
      else (k', v') :: qmap_insert k v m'
  end.

(** [find(k)] / [value(k)]. *)
Fixpoint qmap_find (k : Z) (m : QMap) : option V :=
  match m with
  | [] => None
  | (k', v') :: m' => if k =? k' then Some v' else qmap_find k m'
  end.

Definition qmap_contains (k : Z) (m : QMap) : bool :=
  match qmap_find k m with Some _ => true | None => false end.

(** [erase(it)] for the iterator returned by [find(k)], and the removal
    done by [take(k)]: the item found for the key goes. *)
Fixpoint qmap_erase (k : Z) (m : QMap) : QMap :=
  match m with
  | [] => []
  | (k', v') :: m' => if k =? k' then m' else (k', v') :: qmap_erase k m'
  end.

(** [take(k)]: removes the item and returns its value, or a
    default-constructed value when the key is absent. *)
Definition qmap_take (dflt : V) (k : Z) (m : QMap) : V * QMap :=
  (match qmap_find k m with Some v => v | None => dflt end, qmap_erase k m).

(** [keys(value)]: the keys, in ascending order, of the items whose value
    compares equal to [value] under the value type's [operator==]. *)
Definition qmap_keys_of (eqv : V -> V -> bool) (value : V) (m : QMap)
  : list Z :=
  map fst (filter (fun kv => eqv (snd kv) value) m).

Definition qmap_keys (m : QMap) : list Z := map fst m.
End QMapOps.
Arguments QMap : clear implicits.

(** Keys strictly ascending, hence one item per key. *)
Fixpoint qmap_wf {V : Type} (m : QMap V) : Prop :=
  match m with
  | [] => True
  | (k, _) :: m' => Forall (fun kv => k < fst kv) m' /\ qmap_wf m'
  end.

Definition isEmpty {A : Type} (l : list A) : bool :=
  match l with [] => true | _ :: _ => false end.

(** A range-based [for] over [l] that appends [f x] to a list, which starts
    empty, with [operator<<]. *)
Definition collect {A B : Type} (f : A -> B) (l : list A) : list B :=
  fold_left (fun acc x => acc ++ [f x]) l [].

(* ================================================================== *)
(** ** Images

    Pixel data is not computed.  An image is the description of how it was
    made, which fixes its size: decoded from a file, resampled by
    [QImage::scaled], or painted on a transparent canvas. *)

Definition QSize := (Z * Z)%type.

Definition QSize_eqb (a b : QSize) : bool :=
  (fst a =? fst b) && (snd a =? snd b).

Inductive QImage : Type :=
| NullImage                                        (* QImage() *)
| Decoded (w h : positive) (data : list Z)
| Resampled (w h : positive) (src : QImage)
    (* src transformed to w x h with Qt::SmoothTransformation *)
| Painted (w h : positive) (x y : Z) (src : QImage).
    (* a w x h Format_ARGB32 image filled with 0, src drawn at (x, y) *)

Definition isNull (image : QImage) : bool :=
  match image with NullImage => true | _ => false end.

Definition width (image : QImage) : Z :=
  match image with
  | NullImage => 0
  | Decoded w _ _ | Resampled w _ _ | Painted w _ _ _ _ => Z.pos w
  end.

Definition height (image : QImage) : Z :=
  match image with
  | NullImage => 0
  | Decoded _ h _ | Resampled _ h _ | Painted _ h _ _ _ => Z.pos h
  end.

Definition size (image : QImage) : QSize := (width image, height image).

(** [QSize::scaled(s, Qt::KeepAspectRatio)], in 64-bit integer arithmetic:
    the largest size of the same aspect ratio that fits in [s]. *)
Definition QSize_scaled_keep (sz s : QSize) : QSize :=
  let (wd, ht) := sz in
  if (wd =? 0) || (ht =? 0) then s
  else
    let rw := (snd s * wd) ÷ ht in
    let useHeight := rw <=? fst s in
    if useHeight then (rw, snd s)
    else (fst s, (fst s * ht) ÷ wd).

(** [QImage::scaled(s, Qt::KeepAspectRatio, Qt::SmoothTransformation)]: null
    for a null image or an empty size; the new size is at least 1 x 1; an
    image that has the new size already is returned as it is. *)
Definition QImage_scaled (image : QImage) (s : QSize) : QImage :=
  if isNull image then NullImage
  else if (fst s <=? 0) || (snd s <=? 0) then NullImage
  else
    let newSize := QSize_scaled_keep (size image) s in
    let newSize := (Z.max (fst newSize) 1, Z.max (snd newSize) 1) in
    if QSize_eqb newSize (size image) then image
    else Resampled (Z.to_pos (fst newSize)) (Z.to_pos (snd newSize)) image.

(** The size [QImage_scaled] gives an image of size [sz] for the target
    [kArtHeight] x [kArtHeight]. *)
Definition fit_in_box (sz : QSize) : QSize :=
  let n := QSize_scaled_keep sz (32, 32) in
  (Z.max (fst n) 1, Z.max (snd n) 1).

(** [QPixmap::fromImage]. *)
Inductive QPixmap : Type :=
| fromImage (image : QImage).

(* ================================================================== *)
(** ** Records of the class *)

(** [QUrl], by its [toString()]. *)
Definition QUrl := QString.

(** [Song] (core/song.h): the url, which is all this file reads, and the
    rest of the track record as an opaque number. *)
Record Song : Type := mkSong { url : QUrl; song_rest : Z }.
Definition SongList := list Song.

(** [TidalSettingsPage::SearchBy], an enum, by its integer value. *)
Definition SearchBy := Z.

Record Result : Type := mkResult {
  metadata_ : Song;
  pixmap_cache_key_ : QString
}.
Definition ResultList := list Result.

Record PendingState : Type := mkPendingState {
  orig_id_ : Z;
  tokens_ : list QString
}.

(** Modelled from the spec: [PendingState::operator==] is declared in
    tidalsearch.h, which is not part of the sources at hand.  The search
    dispatcher "checks whether origin has any remaining PendingSearchState
    entries", so two states compare equal when their origins are equal. *)
Definition PendingState_eqb (a b : PendingState) : bool :=
  orig_id_ a =? orig_id_ b.

Record DelayedSearch : Type := mkDelayedSearch {
  id_ : Z;
  query_ : QString;
  searchby_ : SearchBy
}.

(** [MimeData] as built by [LoadTracks]: an [InternetSongMimeData] with its
    [songs] member and the urls set by [setUrls]. *)
Record MimeData : Type := mkMimeData {
  songs : SongList;
  urls : list QUrl
}.

Definition kDelayedSearchTimeoutMs : Z := 200.
Definition kMaxResultsPerEmission : Z := 1000.
Definition kArtHeight : Z := 32.

(** Modelled from the spec: the type of [pixmap_cache_] is declared in
    tidalsearch.h, which is not part of the sources at hand.  The thumbnail
    cache is a keyed store: [Insert(key, image)] "stores/overwrites an
    entry", [Lookup(key)] returns the image and whether it was found. *)
Definition PixmapCache := list (QString * QPixmap).

Definition cache_insert (key : QString) (pixmap : QPixmap) (c : PixmapCache)
  : PixmapCache :=
  (key, pixmap) :: filter (fun e => negb (String.eqb (fst e) key)) c.

Fixpoint cache_find (key : QString) (c : PixmapCache) : option QPixmap :=
  match c with
  | [] => None
  | (k, p) :: c' => if String.eqb k key then Some p else cache_find key c'
  end.

(** The object state: the members of [TidalSearch] that the member
    functions read or write, and [timers_], the ids of the timers of this
    [QObject] that Qt holds active. *)
Record TidalSearch : Type := mkTidalSearch {
  searches_next_id_ : Z;
  art_searches_next_id_ : Z;
  delayed_searches_ : QMap DelayedSearch;
  pending_searches_ : QMap PendingState;
  pending_art_searches_ : QMap QString;
  cover_loader_tasks_ : QMap Z;
  pixmap_cache_ : PixmapCache;
  timers_ : list Z
}.

(** The state left by the constructor (lines 56-79). *)
Definition constructed : TidalSearch :=
  {| searches_next_id_ := 1;
     art_searches_next_id_ := 1;
     delayed_searches_ := [];
     pending_searches_ := [];
     pending_art_searches_ := [];
     cover_loader_tasks_ := [];
     pixmap_cache_ := [];
     timers_ := [] |}.

(* ================================================================== *)
(** ** Signals and collaborator calls *)

(** What an operation does to the outside: the signals it emits, and the
    calls it makes to the backend service, the album cover loader and Qt's
    timers, each with the value the collaborator returned.
    [backend_Search origin query searchby service_id] stands for
    [SearchAsync(origin, query, searchby)] having called
    [service_->Search(query, searchby)], which returned [service_id]. *)
Inductive Effect : Type :=
| emit_SearchAsyncSig (id : Z) (query : QString) (searchby : SearchBy)
| emit_ResultsAvailable (id : Z) (results : ResultList)
| emit_AddResults (id : Z) (results : ResultList)
| emit_SearchError (id : Z) (error : QString)
| emit_SearchFinished (id : Z)
| emit_ArtLoaded (id : Z) (pixmap : QPixmap)
| backend_Search (origin : Z) (query : QString) (searchby : SearchBy)
                 (service_id : Z)
| loader_LoadImageAsync (song : Song) (loader_id : Z)
| qt_startTimer (interval : Z) (timer_id : Z)
| qt_killTimer (timer_id : Z).

(** A member function: from the object state to a result, the new state and
    the log of what it did, in order. *)
Definition M (A : Type) : Type := TidalSearch -> A * TidalSearch * list Effect.

Definition ret {A : Type} (a : A) : M A := fun s => (a, s, []).

Definition bind {A B : Type} (c : M A) (k : A -> M B) : M B :=
  fun s =>
    let '(a, s1, log1) := c s in
    let '(b, s2, log2) := k a s1 in
    (b, s2, log1 ++ log2).

Declare Scope member_scope.
Delimit Scope member_scope with member.
Notation "x <- c ;; k" := (bind c (fun x => k))
  (at level 61, c at next level, right associativity) : member_scope.
Notation "c ;; k" := (bind c (fun _ => k))
  (at level 61, right associativity) : member_scope.
Local Open Scope member_scope.

Definition this : M TidalSearch := fun s => (s, s, []).
Definition log (e : Effect) : M unit := fun s => (tt, s, [e]).
Definition modify (f : TidalSearch -> TidalSearch) : M unit :=
  fun s => (tt, f s, []).

Definition state_of {A : Type} (r : A * TidalSearch * list Effect)
  : TidalSearch := snd (fst r).
Definition effects_of {A : Type} (r : A * TidalSearch * list Effect)
  : list Effect := snd r.
Definition value_of {A : Type} (r : A * TidalSearch * list Effect) : A :=
  fst (fst r).

Definition set_searches_next_id (n : Z) (s : TidalSearch) : TidalSearch :=
  mkTidalSearch n (art_searches_next_id_ s) (delayed_searches_ s)
    (pending_searches_ s) (pending_art_searches_ s) (cover_loader_tasks_ s)
    (pixmap_cache_ s) (timers_ s).

Definition set_art_searches_next_id (n : Z) (s : TidalSearch) : TidalSearch :=
  mkTidalSearch (searches_next_id_ s) n (delayed_searches_ s)
    (pending_searches_ s) (pending_art_searches_ s) (cover_loader_tasks_ s)
    (pixmap_cache_ s) (timers_ s).

Definition set_delayed_searches (m : QMap DelayedSearch) (s : TidalSearch)
  : TidalSearch :=
  mkTidalSearch (searches_next_id_ s) (art_searches_next_id_ s) m
    (pending_searches_ s) (pending_art_searches_ s) (cover_loader_tasks_ s)
    (pixmap_cache_ s) (timers_ s).

Definition set_pending_searches (m : QMap PendingState) (s : TidalSearch)
  : TidalSearch :=
  mkTidalSearch (searches_next_id_ s) (art_searches_next_id_ s)
    (delayed_searches_ s) m (pending_art_searches_ s) (cover_loader_tasks_ s)
    (pixmap_cache_ s) (timers_ s).

Definition set_pending_art_searches (m : QMap QString) (s : TidalSearch)
  : TidalSearch :=
  mkTidalSearch (searches_next_id_ s) (art_searches_next_id_ s)
    (delayed_searches_ s) (pending_searches_ s) m (cover_loader_tasks_ s)
    (pixmap_cache_ s) (timers_ s).

Definition set_cover_loader_tasks (m : QMap Z) (s : TidalSearch)
  : TidalSearch :=
  mkTidalSearch (searches_next_id_ s) (art_searches_next_id_ s)
    (delayed_searches_ s) (pending_searches_ s) (pending_art_searches_ s) m
    (pixmap_cache_ s) (timers_ s).

Definition set_pixmap_cache (c : PixmapCache) (s : TidalSearch) : TidalSearch :=
  mkTidalSearch (searches_next_id_ s) (art_searches_next_id_ s)
    (delayed_searches_ s) (pending_searches_ s) (pending_art_searches_ s)
    (cover_loader_tasks_ s) c (timers_ s).

Definition set_timers (t : list Z) (s : TidalSearch) : TidalSearch :=
  mkTidalSearch (searches_next_id_ s) (art_searches_next_id_ s)
    (delayed_searches_ s) (pending_searches_ s) (pending_art_searches_ s)
    (cover_loader_tasks_ s) (pixmap_cache_ s) t.

(** [QObject::startTimer(interval)]; Qt answered [timer_id], and holds that
    timer active until it is killed. *)
Definition startTimer (interval timer_id : Z) : M Z :=
  log (qt_startTimer interval timer_id) ;;
  modify (fun s => set_timers (timer_id :: timers_ s) s) ;;
  ret timer_id.

(** [QObject::killTimer(id)]. *)
Definition killTimer (timer_id : Z) : M unit :=
  log (qt_killTimer timer_id) ;;
  modify (fun s => set_timers (filter (fun t => negb (t =? timer_id))
                                      (timers_ s)) s).

(* ================================================================== *)
(** ** Result processing and the thumbnail cache (lines 194-220) *)

Definition PixmapCacheKey (result : Result) : QString :=
  String.append "tidal:" (url (metadata_ result)).

(** The body of the loop that sets [pixmap_cache_key_] of every result to
    its [PixmapCacheKey]. *)
Definition with_cache_key (it : Result) : Result :=
  mkResult (metadata_ it) (PixmapCacheKey it).

Definition ResultsAvailableSlot (id : Z) (results : ResultList) : M unit :=
  if isEmpty results then ret tt
  else
    (* Limit the number of results that are used from each emission. *)
    let results :=
      if Z.of_nat (List.length results) >? kMaxResultsPerEmission
      then firstn (Z.to_nat kMaxResultsPerEmission) results
      else results in
    (* Load cached pixmaps into the results *)
    let results := map with_cache_key results in
    log (emit_AddResults id results).

(** [FindCachedPixmap]: [Some pixmap] stands for the result [true] with
    [*pixmap] set, [None] for [false]. *)
Definition FindCachedPixmap (result : Result) (s : TidalSearch)
  : option QPixmap :=
  cache_find (pixmap_cache_key_ result) (pixmap_cache_ s).

(* ================================================================== *)
(** ** Debounced scheduling and dispatch (lines 114-192) *)

(** [SearchAsync(int id, query, searchby)]: [service_id] is the answer of
    [service_->Search]. *)
Definition SearchAsync_id (id : Z) (query : QString) (searchby : SearchBy)
  (service_id : Z) : M unit :=
  log (backend_Search id query searchby service_id) ;;
  modify (fun s =>
    set_pending_searches
      (qmap_insert service_id (mkPendingState id (TokenizeQuery query))
                   (pending_searches_ s)) s).

(** [DoSearchAsync]: [timer_id] is the answer of [startTimer].  The three
    assignments through [delayed_searches_[timer_id]] set every member of
    the item, whether it was there before or not. *)
Definition DoSearchAsync (id : Z) (query : QString) (searchby : SearchBy)
  (timer_id : Z) : M unit :=
  timer_id <- startTimer kDelayedSearchTimeoutMs timer_id ;;
  modify (fun s =>
    set_delayed_searches
      (qmap_insert timer_id (mkDelayedSearch id query searchby)
                   (delayed_searches_ s)) s).

(** [SearchAsync(query, searchby)]: the signal [SearchAsyncSig] is connected
    to the slot [DoSearchAsync] of the same object, which runs at once. *)
Definition SearchAsync (query : QString) (searchby : SearchBy) (timer_id : Z)
  : M Z :=
  s <- this ;;
  let id := searches_next_id_ s in
  modify (set_searches_next_id (int_succ id)) ;;
  log (emit_SearchAsyncSig id query searchby) ;;
  DoSearchAsync id query searchby timer_id ;;
  ret id.

(** The loop of [CancelSearch]: in key order, the first item whose [id_] is
    [id] is erased; the result is its key and the map without it. *)
Fixpoint cancel_scan (id : Z) (m : QMap DelayedSearch)
  : option (Z * QMap DelayedSearch) :=
  match m with
  | [] => None
  | (key, value) :: m' =>
      if id_ value =? id then Some (key, m')
      else match cancel_scan id m' with
           | Some (k, rest) => Some (k, (key, value) :: rest)
           | None => None
           end
  end.

Definition CancelSearch (id : Z) : M unit :=
  s <- this ;;
  match cancel_scan id (delayed_searches_ s) with
  | Some (key, rest) =>
      killTimer key ;;
      modify (set_delayed_searches rest)
  | None => ret tt
  end.

(** [timerEvent]: [QObject::timerEvent], reached for a timer without a
    delayed search, does nothing. *)
Definition timerEvent (timerId : Z) (service_id : Z) : M unit :=
  s <- this ;;
  match qmap_find timerId (delayed_searches_ s) with
  | Some it =>
      SearchAsync_id (id_ it) (query_ it) (searchby_ it) service_id ;;
      modify (fun s =>
        set_delayed_searches (qmap_erase timerId (delayed_searches_ s)) s)
  | None => ret tt
  end.

Definition MaybeSearchFinished (id : Z) : M unit :=
  s <- this ;;
  if isEmpty (qmap_keys_of PendingState_eqb (mkPendingState id [])
                           (pending_searches_ s))
  then log (emit_SearchFinished id)
  else ret tt.

Definition HandleError (id : Z) (error : QString) : M unit :=
  log (emit_SearchError id error).

Section WithHeader.
(** [PendingState()], the value [QMap::take] returns for an absent key:
    its [orig_id_] is set by the default constructor in tidalsearch.h;
    its [tokens_] is an empty list. *)
Variable default_orig_id : Z.

Definition PendingState_default : PendingState :=
  mkPendingState default_orig_id [].

(** [SearchDone]: the signal [ResultsAvailable] is connected to the slot
    [ResultsAvailableSlot] of the same object, which runs at once. *)
Definition SearchDone (service_id : Z) (songs : SongList) : M unit :=
  (* Map back to the original id. *)
  s <- this ;;
  let (state, rest) :=
    qmap_take PendingState_default service_id (pending_searches_ s) in
  modify (set_pending_searches rest) ;;
  let search_id := orig_id_ state in
  let ret_ := collect (fun song => mkResult song EmptyString) songs in
  log (emit_ResultsAvailable search_id ret_) ;;
  ResultsAvailableSlot search_id ret_ ;;
  MaybeSearchFinished search_id.
End WithHeader.

(* ================================================================== *)
(** ** Album art (lines 222-283) *)

Definition LoadArtAsync (result : Result) (loader_id : Z) : M Z :=
  s <- this ;;
  let id := art_searches_next_id_ s in
  modify (set_art_searches_next_id (int_succ id)) ;;
  modify (fun s =>
    set_pending_art_searches
      (qmap_insert id (pixmap_cache_key_ result) (pending_art_searches_ s)) s) ;;
  log (loader_LoadImageAsync (metadata_ result) loader_id) ;;
  modify (fun s =>
    set_cover_loader_tasks
      (qmap_insert loader_id id (cover_loader_tasks_ s)) s) ;;
  ret id.

(** [HandleLoadedArt]: the signal emitted is [ArtLoaded(int, QPixmap)]; the
    constructor's connection to [ArtLoadedSlot] names [ArtLoaded(int,
    QImage)], another signature, so no slot of this object runs. *)
Definition HandleLoadedArt (id : Z) (image : QImage) : M unit :=
  s <- this ;;
  let (key, rest) := qmap_take EmptyString id (pending_art_searches_ s) in
  modify (set_pending_art_searches rest) ;;
  let pixmap := fromImage image in
  modify (fun s => set_pixmap_cache (cache_insert key pixmap (pixmap_cache_ s)) s) ;;
  log (emit_ArtLoaded id pixmap).

Definition ArtLoadedSlot (id : Z) (image : QImage) : M unit :=
  HandleLoadedArt id image.

Definition AlbumArtLoaded (id : Z) (image : QImage) : M unit :=
  s <- this ;;
  if negb (qmap_contains id (cover_loader_tasks_ s)) then ret tt
  else
    let (orig_id, rest) := qmap_take 0 id (cover_loader_tasks_ s) in
    modify (set_cover_loader_tasks rest) ;;
    HandleLoadedArt orig_id image.

Definition ScaleAndPad (image : QImage) : QImage :=
  if isNull image then NullImage
  else
    let target_size : QSize := (kArtHeight, kArtHeight) in
    if QSize_eqb (size image) target_size then image
    else
      (* Scale the image down *)
      let copy := QImage_scaled image target_size in
      (* Pad the image to kHeight x kHeight *)
      if QSize_eqb (size copy) target_size then copy
      else
        Painted (Z.to_pos kArtHeight) (Z.to_pos kArtHeight)
                ((kArtHeight - width copy) ÷ 2)
                ((kArtHeight - height copy) ÷ 2) copy.

(* ================================================================== *)
(** ** LoadTracks (lines 285-313); [None] is the null pointer *)

Definition LoadTracks (results : ResultList) : option MimeData :=
  if isEmpty results then None
  else
    let songs := collect metadata_ results in
    let urls := collect (fun result => url (metadata_ result)) results in
    Some (mkMimeData songs urls).

(* ================================================================== *)
(** ** The object in its event loop *)

(** What reaches the object, one event at a time (the class is driven by a
    single event loop): calls of its public interface, the slot
    [DoSearchAsync] invoked for an id of the caller's choice, timer events,
    and the replies of the backend service and of the album cover loader.
    An event carries what the collaborator called during it returns. *)
Inductive Event : Type :=
| call_SearchAsync (query : QString) (searchby : SearchBy) (timer_id : Z)
| slot_DoSearchAsync (id : Z) (query : QString) (searchby : SearchBy)
                     (timer_id : Z)
| call_CancelSearch (id : Z)
| qt_timerEvent (timer_id : Z) (service_id : Z)
| service_SearchResults (service_id : Z) (songs : SongList)
| service_SearchError (id : Z) (error : QString)
| call_LoadArtAsync (result : Result) (loader_id : Z)
| loader_ImageLoaded (loader_id : Z) (image : QImage).

Definition Transcript := list (Event * list Effect).

Definition mem (z : Z) (l : list Z) : bool := existsb (Z.eqb z) l.

(** What the collaborators guarantee about the ids they hand out: Qt never
    returns the id of a timer that is still active, the backend never
    reuses a correlation id that is still pending, and neither does the
    album cover loader. *)
Definition env_ok (s : TidalSearch) (ev : Event) : bool :=
  match ev with
  | call_SearchAsync _ _ timer_id
  | slot_DoSearchAsync _ _ _ timer_id => negb (mem timer_id (timers_ s))
  | qt_timerEvent _ service_id =>
      negb (qmap_contains service_id (pending_searches_ s))
  | call_LoadArtAsync _ loader_id =>
      negb (qmap_contains loader_id (cover_loader_tasks_ s))
  | _ => true
  end.

(** Events of the interface exposed to the caller and of the collaborators;
    the slot [DoSearchAsync] is then reached through [SearchAsync] only. *)
Definition public_event (ev : Event) : bool :=
  match ev with
  | slot_DoSearchAsync _ _ _ _ => false
  | _ => true
  end.

Record Run : Type := mkRun {
  now : TidalSearch;
  transcript : Transcript;
  env_respected : bool
}.

Section EventLoop.
Variable default_orig_id : Z.

Definition step (ev : Event) : M unit :=
  match ev with
  | call_SearchAsync query searchby timer_id =>
      SearchAsync query searchby timer_id ;; ret tt
  | slot_DoSearchAsync id query searchby timer_id =>
      DoSearchAsync id query searchby timer_id
  | call_CancelSearch id => CancelSearch id
  | qt_timerEvent timer_id service_id => timerEvent timer_id service_id
  | service_SearchResults service_id songs =>
      SearchDone default_orig_id service_id songs
  | service_SearchError id error => HandleError id error
  | call_LoadArtAsync result loader_id =>
      LoadArtAsync result loader_id ;; ret tt
  | loader_ImageLoaded loader_id image => AlbumArtLoaded loader_id image
  end.

Definition run_step (r : Run) (ev : Event) : Run :=
  let res := step ev (now r) in
  {| now := state_of res;
     transcript := transcript r ++ [(ev, effects_of res)];
     env_respected := env_respected r && env_ok (now r) ev |}.

(** The object after the events [evs], from its construction. *)
Definition run (evs : list Event) : Run :=
  fold_left run_step evs (mkRun constructed [] true).
End EventLoop.

(** The backend dispatches made during an event, as (origin, correlation
    id). *)
Definition dispatches (effs : list Effect) : list (Z * Z) :=
  flat_map (fun e => match e with
                     | backend_Search origin _ _ service_id =>
                         [(origin, service_id)]
                     | _ => []
                     end) effs.

Definition answers (ev : Event) (p : Z * Z) : bool :=
  match ev with
  | service_SearchResults service_id _ => snd p =? service_id
  | _ => false
  end.

(** The dispatches of a transcript that no success reply has answered
    yet. *)
Definition outstanding_step (out : list (Z * Z)) (item : Event * list Effect)
  : list (Z * Z) :=
  filter (fun p => negb (answers (fst item) p)) out ++ dispatches (snd item).

Definition outstanding (tr : Transcript) : list (Z * Z) :=
  fold_left outstanding_step tr [].



Definition dispatched_origins (tr : Transcript) : list Z :=
  map fst (flat_map (fun item => dispatches (snd item)) tr).

Definition fetches (effs : list Effect) : list (Song * Z) :=
  flat_map (fun e => match e with
                     | loader_LoadImageAsync song loader_id =>
                         [(song, loader_id)]
                     | _ => []
                     end) effs.

(** Everything the object did during a run, in order. *)
Definition all_effects (tr : Transcript) : list Effect :=
  flat_map snd tr.

Definition origins (m : QMap DelayedSearch) : list Z :=
  map (fun kv => id_ (snd kv)) m.

(** ** Invariants of the event loop *)

Definition no_finished (effs : list Effect) : Prop :=
  forall O, ~ In (emit_SearchFinished O) effs.

(** The dispatches not yet answered are the items of [pending_searches_]. *)
Definition tracks_pending (out : list (Z * Z)) (m : QMap PendingState) : Prop :=
  forall O sid,
    In (O, sid) out <-> exists st, qmap_find sid m = Some st /\ orig_id_ st = O.

Definition dispatcher_inv (r : Run) : Prop :=
  qmap_wf (pending_searches_ (now r))
  /\ tracks_pending (outstanding (transcript r)) (pending_searches_ (now r)).

(** Every delayed search sits under the id of an active timer. *)
Definition scheduler_inv (s : TidalSearch) : Prop :=
  qmap_wf (delayed_searches_ s)
  /\ forall k e, qmap_find k (delayed_searches_ s) = Some e ->
                 mem k (timers_ s) = true.

(** Origins are handed out once: the origins of the delayed searches are
    pairwise different and, like the origins dispatched so far, below the
    next id; an origin that was dispatched has no delayed search. *)
Definition origins_inv (r : Run) : Prop :=
  1 <= searches_next_id_ (now r)
       <= 1 + Z.of_nat (List.length (transcript r))
  /\ NoDup (origins (delayed_searches_ (now r)))
  /\ (forall o, In o (origins (delayed_searches_ (now r))) ->
                o < searches_next_id_ (now r))
  /\ (forall o, In o (dispatched_origins (transcript r)) ->
                o < searches_next_id_ (now r)
                /\ ~ In o (origins (delayed_searches_ (now r)))).

(** The object after an event, member by member. *)
Definition after_event (ev : Event) (s : TidalSearch) : TidalSearch :=
  match ev with
  | call_SearchAsync q m t =>
      mkTidalSearch (int_succ (searches_next_id_ s)) (art_searches_next_id_ s)
        (qmap_insert t (mkDelayedSearch (searches_next_id_ s) q m)
                     (delayed_searches_ s))
        (pending_searches_ s) (pending_art_searches_ s)
        (cover_loader_tasks_ s) (pixmap_cache_ s) (t :: timers_ s)
  | slot_DoSearchAsync i q m t =>
      mkTidalSearch (searches_next_id_ s) (art_searches_next_id_ s)
        (qmap_insert t (mkDelayedSearch i q m) (delayed_searches_ s))
        (pending_searches_ s) (pending_art_searches_ s)
        (cover_loader_tasks_ s) (pixmap_cache_ s) (t :: timers_ s)
  | call_CancelSearch i =>
      match cancel_scan i (delayed_searches_ s) with
      | Some (key, rest) =>
          mkTidalSearch (searches_next_id_ s) (art_searches_next_id_ s) rest
            (pending_searches_ s) (pending_art_searches_ s)
            (cover_loader_tasks_ s) (pixmap_cache_ s)
            (filter (fun t => negb (t =? key)) (timers_ s))
      | None => s
      end
  | qt_timerEvent t sid =>
      match qmap_find t (delayed_searches_ s) with
      | Some it =>
          mkTidalSearch (searches_next_id_ s) (art_searches_next_id_ s)
            (qmap_erase t (delayed_searches_ s))
            (qmap_insert sid
               (mkPendingState (id_ it) (TokenizeQuery (query_ it)))
               (pending_searches_ s))
            (pending_art_searches_ s) (cover_loader_tasks_ s)
            (pixmap_cache_ s) (timers_ s)
      | None => s
      end
  | service_SearchResults sid _ =>
      mkTidalSearch (searches_next_id_ s) (art_searches_next_id_ s)
        (delayed_searches_ s) (qmap_erase sid (pending_searches_ s))
        (pending_art_searches_ s) (cover_loader_tasks_ s) (pixmap_cache_ s)
        (timers_ s)
  | service_SearchError _ _ => s
  | call_LoadArtAsync r l =>
      mkTidalSearch (searches_next_id_ s) (int_succ (art_searches_next_id_ s))
        (delayed_searches_ s) (pending_searches_ s)
        (qmap_insert (art_searches_next_id_ s) (pixmap_cache_key_ r)
                     (pending_art_searches_ s))
        (qmap_insert l (art_searches_next_id_ s) (cover_loader_tasks_ s))
        (pixmap_cache_ s) (timers_ s)
  | loader_ImageLoaded l image =>
      match qmap_find l (cover_loader_tasks_ s) with
      | Some id =>
          mkTidalSearch (searches_next_id_ s) (art_searches_next_id_ s)
            (delayed_searches_ s) (pending_searches_ s)
            (qmap_erase id (pending_art_searches_ s))
            (qmap_erase l (cover_loader_tasks_ s))
            (cache_insert
               (fst (qmap_take EmptyString id (pending_art_searches_ s)))
               (fromImage image) (pixmap_cache_ s))
            (timers_ s)
      | None => s
      end
  end.

Definition is_SearchAsync (ev : Event) : bool :=
  match ev with call_SearchAsync _ _ _ => true | _ => false end.

Definition is_LoadArtAsync (ev : Event) : bool :=
  match ev with call_LoadArtAsync _ _ => true | _ => false end.

Definition calls (kind : Event -> bool) (evs : list Event) : Z :=
  Z.of_nat (List.length (filter kind evs)).


(** Pieces with a separator between each two of them. *)
Fixpoint interleave (pieces seps : list QString) : QString :=
  match pieces with
  | [] => EmptyString
  | p :: ps =>
      match seps with
      | [] => p
      | sp :: ss => String.append p (String.append sp (interleave ps ss))
      end
  end.

Definition not_colon (c : ascii) : bool := negb (Ascii.eqb c colon_char).

Definition whitespace_run (sp : QString) : Prop :=
  sp <> EmptyString /\ QString_all isSpace sp = true.

(** [pieces] and [seps] cut a string at its maximal runs of whitespace:
    the separators are the runs, the pieces hold no whitespace, and only the
    first and the last piece may be empty. *)
Definition cut_at_runs (pieces seps : list QString) : Prop :=
  List.length pieces = S (List.length seps)
  /\ Forall (fun p => QString_all not_space p = true) pieces
  /\ Forall whitespace_run seps
  /\ Forall (fun p => p <> EmptyString) (removelast (tl pieces)).






(** A timer that has dispatched its search: still active, and without a
    delayed search. *)
Definition spent_timer (tid : Z) (s : TidalSearch) : Prop :=
  mem tid (timers_ s) = true /\ qmap_find tid (delayed_searches_ s) = None.

(** Words joined by single blanks. *)
Fixpoint join_words (words : list QString) : QString :=
  match words with
  | [] => EmptyString
  | [w] => w
  | w :: ws => String.append w (String " "%char (join_words ws))
  end.

(** A character that the tokenizer neither cuts at nor removes. *)
Definition plain_char (c : ascii) : bool :=
  not_space c && not_bracket_or_quote c && negb (Ascii.eqb c colon_char).

Definition plain_word (w : QString) : Prop :=
  w <> EmptyString /\ QString_all plain_char w = true.

(** [t] occurs in [s]. *)
Definition occurs_in (t s : QString) : Prop :=
  exists a b, s = String.append a (String.append t b).

(** A track and a result for it, for concrete runs. *)
Definition sample_song : Song := mkSong "tidal://track/7"%string 7.
Definition sample_result : Result :=
  mkResult sample_song "tidal:tidal://track/7"%string.

(* ================================================================== *)
(** * Theorems *)

(** ** QMap *)

Section QMapFacts.
Context {V : Type}.
Implicit Types (m : QMap V) (k : Z) (v : V).

Lemma qmap_insert_Forall (P : Z * V -> Prop) k v m :
  P (k, v) -> Forall P m -> Forall P (qmap_insert k v m).
Proof.
  intros Hp Hm. induction Hm as [|[k' v'] m' Hx Hm' IH]; simpl.
  - constructor; [assumption | constructor].
  - destruct (k <? k'); [constructor; [assumption | constructor; assumption] |].
    destruct (k =? k'); constructor; assumption.
Qed.

Lemma qmap_insert_wf k v m : qmap_wf m -> qmap_wf (qmap_insert k v m).
Proof.
  induction m as [|[k' v'] m' IH]; simpl; intros Hwf.
  - split; [constructor | exact I].
  - destruct Hwf as [Hall Hwf].
    destruct (Z.ltb_spec k k') as [Hlt|Hge].
    + simpl. split; [|split; assumption].
      constructor; [exact Hlt|].
      eapply Forall_impl; [|exact Hall]. simpl. intros; lia.
    + destruct (Z.eqb_spec k k') as [->|Hne]; simpl.
      * split; assumption.
      * split; [|apply IH; assumption].
        apply qmap_insert_Forall; [simpl; lia | assumption].
Qed.

Lemma qmap_erase_Forall (P : Z * V -> Prop) k m :
  Forall P m -> Forall P (qmap_erase k m).
Proof.
  intros Hm. induction Hm as [|[k' v'] m' Hx Hm' IH]; simpl.
  - constructor.
  - destruct (k =? k'); [assumption | constructor; assumption].
Qed.

Lemma qmap_erase_wf k m : qmap_wf m -> qmap_wf (qmap_erase k m).
Proof.
  induction m as [|[k' v'] m' IH]; simpl; intros Hwf; [exact I|].
  destruct Hwf as [Hall Hwf].
  destruct (k =? k'); [assumption|]. simpl.
  split; [apply qmap_erase_Forall; assumption | apply IH; assumption].
Qed.

Lemma qmap_find_insert_same k v m : qmap_find k (qmap_insert k v m) = Some v.
Proof.
  induction m as [|[k' v'] m' IH]; simpl.
  - rewrite Z.eqb_refl. reflexivity.
  - destruct (Z.ltb_spec k k').
    + simpl. rewrite Z.eqb_refl. reflexivity.
    + destruct (Z.eqb_spec k k') as [->|Hne]; simpl.
      * rewrite Z.eqb_refl. reflexivity.
      * destruct (Z.eqb_spec k k'); [contradiction | exact IH].
Qed.

Lemma qmap_find_insert_other k k0 v m :
  k0 <> k -> qmap_find k0 (qmap_insert k v m) = qmap_find k0 m.
Proof.
  intros Hne. induction m as [|[k' v'] m' IH]; simpl.
  - destruct (Z.eqb_spec k0 k); [contradiction | reflexivity].
  - destruct (Z.ltb_spec k k').
    + simpl. destruct (Z.eqb_spec k0 k); [contradiction | reflexivity].
    + destruct (Z.eqb_spec k k') as [->|Hne']; simpl.
      * destruct (Z.eqb_spec k0 k'); [contradiction | reflexivity].
      * destruct (k0 =? k'); [reflexivity | exact IH].
Qed.

Lemma qmap_find_above k m :
  Forall (fun kv => k < fst kv) m -> qmap_find k m = None.
Proof.
  induction 1 as [|[k' v'] m' Hx Hm IH]; simpl; [reflexivity|].
  simpl in Hx. destruct (Z.eqb_spec k k'); [lia | exact IH].
Qed.

Lemma qmap_find_erase_same k m :
  qmap_wf m -> qmap_find k (qmap_erase k m) = None.
Proof.
  induction m as [|[k' v'] m' IH]; simpl; intros Hwf; [reflexivity|].
  destruct Hwf as [Hall Hwf].
  destruct (Z.eqb_spec k k') as [->|Hne].
  - apply qmap_find_above; assumption.
  - simpl. destruct (Z.eqb_spec k k'); [contradiction | apply IH; assumption].
Qed.

Lemma qmap_find_erase_other k k0 m :
  k0 <> k -> qmap_find k0 (qmap_erase k m) = qmap_find k0 m.
Proof.
  intros Hne. induction m as [|[k' v'] m' IH]; simpl; [reflexivity|].
  destruct (Z.eqb_spec k k') as [->|Hne'].
  - destruct (Z.eqb_spec k0 k'); [contradiction | reflexivity].
  - simpl. destruct (k0 =? k'); [reflexivity | exact IH].
Qed.

Lemma qmap_find_In k v m : qmap_find k m = Some v -> In (k, v) m.
Proof.
  induction m as [|[k' v'] m' IH]; simpl; [discriminate|].
  destruct (Z.eqb_spec k k') as [->|Hne].
  - intros [= ->]. left; reflexivity.
  - intros H. right. apply IH; exact H.
Qed.

Lemma qmap_In_find k v m : qmap_wf m -> In (k, v) m -> qmap_find k m = Some v.
Proof.
  induction m as [|[k' v'] m' IH]; simpl; [intros _ []|].
  intros [Hall Hwf] [Heq|Hin].
  - inversion Heq; subst. rewrite Z.eqb_refl. reflexivity.
  - destruct (Z.eqb_spec k k') as [->|Hne]; [|apply IH; assumption].
    rewrite Forall_forall in Hall. specialize (Hall _ Hin). simpl in Hall. lia.
Qed.

Lemma qmap_contains_false k m :
  qmap_contains k m = false <-> qmap_find k m = None.
Proof.
  unfold qmap_contains. destruct (qmap_find k m); split; congruence.
Qed.
End QMapFacts.


(** ** Tokenizer *)

Lemma remove_char_append c a b :
  QString_remove_char c (String.append a b)
  = String.append (QString_remove_char c a) (QString_remove_char c b).
Proof.
  induction a as [|x a IH]; simpl; [reflexivity|].
  destruct (Ascii.eqb x c); simpl; rewrite IH; reflexivity.
Qed.

Lemma remove_char_all c p s :
  QString_all p s = true -> QString_all p (QString_remove_char c s) = true.
Proof.
  induction s as [|x s IH]; simpl; [reflexivity|].
  intros H. apply andb_true_iff in H. destruct H as [Hx Hs].
  destruct (Ascii.eqb x c); simpl; [auto|]. rewrite Hx. simpl. auto.
Qed.

Lemma remove_char_gone c s :
  QString_all (fun a => negb (Ascii.eqb a c)) (QString_remove_char c s) = true.
Proof.
  induction s as [|x s IH]; simpl; [reflexivity|].
  destruct (Ascii.eqb x c) eqn:E; simpl; [exact IH|].
  rewrite E. simpl. exact IH.
Qed.

Lemma QString_all_and p q s :
  QString_all p s = true -> QString_all q s = true ->
  QString_all (fun a => p a && q a) s = true.
Proof.
  induction s as [|x s IH]; simpl; [reflexivity|].
  intros Hp Hq. apply andb_true_iff in Hp. apply andb_true_iff in Hq.
  destruct Hp as [-> Hp], Hq as [-> Hq]. simpl. auto.
Qed.

Lemma strip_clean tok : QString_all not_bracket_or_quote (strip tok) = true.
Proof.
  unfold strip, not_bracket_or_quote.
  apply QString_all_and; [apply QString_all_and|].
  - do 2 apply remove_char_all. apply remove_char_gone.
  - apply remove_char_all. apply remove_char_gone.
  - apply remove_char_gone.
Qed.

Lemma strip_append a b : strip (String.append a b) = String.append (strip a) (strip b).
Proof. unfold strip. rewrite !remove_char_append. reflexivity. Qed.

Lemma QString_all_drop p n s :
  QString_all p s = true -> QString_all p (QString_drop n s) = true.
Proof.
  revert s. induction n as [|n IH]; intros [|x s]; simpl; auto.
  intros H. apply andb_true_iff in H. destruct H as [_ H]. auto.
Qed.

Lemma QString_all_take p n s :
  QString_all p s = true -> QString_all p (QString_take n s) = true.
Proof.
  revert s. induction n as [|n IH]; intros [|x s]; simpl; auto.
  intros H. apply andb_true_iff in H. destruct H as [-> H]. simpl. auto.
Qed.

Lemma QString_all_append p a b :
  QString_all p a = true -> QString_all p b = true ->
  QString_all p (String.append a b) = true.
Proof.
  induction a as [|x a IH]; simpl; [auto|].
  intros H Hb. apply andb_true_iff in H. destruct H as [-> H]. simpl. auto.
Qed.

Lemma QString_remove_all p pos len s :
  QString_all p s = true -> QString_all p (QString_remove pos len s) = true.
Proof.
  intros H. unfold QString_remove.
  repeat match goal with |- context [if ?b then _ else _] => destruct b end;
    auto using QString_all_take, QString_all_drop, QString_all_append.
Qed.

Lemma clean_token_clean tok :
  QString_all not_bracket_or_quote (clean_token tok) = true.
Proof.
  unfold clean_token. fold (strip tok).
  destruct (negb _); [apply QString_remove_all|]; apply strip_clean.
Qed.

Lemma indexOf_range c s : -1 <= QString_indexOf c s < QString_size s.
Proof.
  unfold QString_size.
  induction s as [|x s IH]; simpl QString_indexOf; simpl String.length; [lia|].
  destruct (Ascii.eqb x c); [lia|].
  destruct (Z.eqb_spec (QString_indexOf c s) (-1)); lia.
Qed.

Lemma indexOf_append_colon pre post :
  QString_indexOf colon_char pre = -1 ->
  QString_indexOf colon_char (String.append pre (String colon_char post))
  = QString_size pre.
Proof.
  induction pre as [|x pre IH]; simpl.
  - intros _. reflexivity.
  - destruct (Ascii.eqb x colon_char); [discriminate|].
    pose proof (indexOf_range colon_char pre) as R.
    destruct (Z.eqb_spec (QString_indexOf colon_char pre) (-1)) as [E|E];
      [|intros; lia].
    intros _. rewrite (IH E).
    unfold QString_size. simpl String.length.
    destruct (Z.eqb_spec (Z.of_nat (String.length pre)) (-1)); lia.
Qed.

Lemma drop_append pre post :
  QString_drop (String.length pre) (String.append pre post) = post.
Proof. induction pre as [|x pre IH]; simpl; [destruct post|]; auto. Qed.

Lemma length_append a b :
  String.length (String.append a b) = (String.length a + String.length b)%nat.
Proof. induction a as [|x a IH]; simpl; [|rewrite IH]; reflexivity. Qed.

Lemma remove_field pre post :
  QString_remove 0 (QString_size pre + 1)
    (String.append pre (String colon_char post)) = post.
Proof.
  unfold QString_remove, QString_size. simpl (0 <? 0).
  rewrite length_append. simpl String.length.
  cbv iota.
  destruct (Z.ltb_spec 0 0); [lia|]. simpl orb.
  destruct (Z.leb_spec (Z.of_nat (String.length pre + S (String.length post))) 0);
    [lia|].
  destruct (Z.leb_spec (Z.of_nat (String.length pre + S (String.length post)) - 0)
                       (Z.of_nat (String.length pre) + 1)) as [Hle|Hgt].
  - simpl. assert (String.length post = 0%nat) as E by lia.
    destruct post; [reflexivity | discriminate].
  - destruct (Z.ltb_spec 0 (Z.of_nat (String.length pre) + 1)); [|lia].
    assert (Z.to_nat (0 + (Z.of_nat (String.length pre) + 1))
            = String.length (String.append pre (String colon_char EmptyString)))
      as -> by (rewrite length_append; simpl; lia).
    assert (String.append pre (String colon_char post)
            = String.append (String.append pre (String colon_char EmptyString)) post)
      as ->.
    { clear. induction pre as [|x pre IH]; simpl; [reflexivity|].
      rewrite IH. reflexivity. }
    rewrite drop_append. reflexivity.
Qed.

Lemma clean_token_field pre post :
  QString_indexOf colon_char (strip pre) = -1 ->
  clean_token (String.append pre (String colon_char post)) = strip post.
Proof.
  intros H. unfold clean_token. fold (strip (String.append pre (String colon_char post))).
  rewrite strip_append.
  assert (strip (String colon_char post) = String colon_char (strip post)) as E
      by reflexivity.
  rewrite E, (indexOf_append_colon _ _ H).
  destruct (Z.eqb_spec (QString_size (strip pre)) (-1)) as [C|C].
  - unfold QString_size in C. lia.
  - simpl negb. cbv iota. apply remove_field.
Qed.

Lemma clean_token_plain tok :
  QString_indexOf colon_char (strip tok) = -1 -> clean_token tok = strip tok.
Proof.
  intros H. unfold clean_token. fold (strip tok). rewrite H. reflexivity.
Qed.

Lemma append_assoc a b c :
  String.append (String.append a b) c = String.append a (String.append b c).
Proof. induction a as [|x a IH]; simpl; [|rewrite IH]; reflexivity. Qed.

Lemma append_empty a : String.append a EmptyString = a.
Proof. induction a as [|x a IH]; simpl; [|rewrite IH]; reflexivity. Qed.

Lemma rev_onto_append s acc :
  QString_rev_onto s acc = String.append (QString_rev_onto s EmptyString) acc.
Proof.
  revert acc. induction s as [|x s IH]; intros acc; simpl; [reflexivity|].
  rewrite IH, (IH (String x EmptyString)), append_assoc. reflexivity.
Qed.

Lemma rev_onto_all p s acc :
  QString_all p s = true -> QString_all p acc = true ->
  QString_all p (QString_rev_onto s acc) = true.
Proof.
  revert acc. induction s as [|x s IH]; intros acc; simpl; [auto|].
  intros H Hacc. apply andb_true_iff in H. destruct H as [Hx Hs].
  apply IH; [exact Hs|]. simpl. rewrite Hx. exact Hacc.
Qed.

(** The pieces, glued together, are the query without its whitespace. *)
Lemma split_go_concat s :
  (forall cur,
      QString_concat (split_go s cur false)
      = String.append (QString_rev_onto cur EmptyString)
                      (QString_filter not_space s))
  /\ QString_concat (split_go s EmptyString true) = QString_filter not_space s.
Proof.
  induction s as [|c s [IHf IHt]]; simpl.
  - split; [intros cur; rewrite append_empty; reflexivity | reflexivity].
  - assert (not_space c = negb (isSpace c)) as N by reflexivity.
    rewrite N. destruct (isSpace c); simpl.
    + split; [intros cur; rewrite IHt; reflexivity | exact IHt].
    + split.
      * intros cur. rewrite IHf. simpl.
        rewrite (rev_onto_append cur), append_assoc. reflexivity.
      * rewrite IHf. reflexivity.
Qed.

Lemma split_go_no_space s :
  forall cur in_run,
    QString_all not_space cur = true ->
    Forall (fun piece => QString_all not_space piece = true)
           (split_go s cur in_run).
Proof.
  induction s as [|c s IH]; intros cur in_run Hcur; simpl.
  - constructor; [apply rev_onto_all; auto | constructor].
  - destruct (isSpace c) eqn:E.
    + destruct in_run; [apply IH; reflexivity|].
      constructor; [apply rev_onto_all; auto | apply IH; reflexivity].
    + apply IH. simpl. unfold not_space at 1. rewrite E. exact Hcur.
Qed.

Lemma split_go_length s :
  forall cur in_run,
    List.length (split_go s cur in_run) = S (whitespace_runs s in_run).
Proof.
  induction s as [|c s IH]; intros cur in_run; simpl; [reflexivity|].
  destruct (isSpace c); [destruct in_run; simpl|]; rewrite IH; reflexivity.
Qed.

(** C6, the claim as stated fails: the empty query does not yield the empty
    sequence but one empty token. *)
Lemma TokenizeQuery_empty_query_not_empty :
  TokenizeQuery EmptyString = [EmptyString]
  /\ TokenizeQuery EmptyString <> [].
Proof. split; [reflexivity | discriminate]. Qed.

(** ** Result processing *)

Lemma collect_map {A B : Type} (f : A -> B) (l : list A) : collect f l = map f l.
Proof.
  unfold collect.
  assert (forall acc, fold_left (fun acc x => acc ++ [f x]) l acc = acc ++ map f l)
    as H.
  { induction l as [|x l IH]; intros acc; simpl.
    - rewrite app_nil_r. reflexivity.
    - rewrite IH, <- app_assoc. reflexivity. }
  apply (H []).
Qed.

Lemma with_cache_key_metadata (results : ResultList) :
  map metadata_ (map with_cache_key results) = map metadata_ results.
Proof. rewrite map_map. reflexivity. Qed.

(** C5: [ResultsAvailableSlot] leaves the object as it is and emits nothing
    for an empty batch; a batch of at most 1000 results is emitted whole,
    in one [AddResults]; of a batch of more than 1000 results exactly the
    first 1000 are emitted, in their order.  The emitted results are the
    batch's own, each with its cache key filled in. *)
Theorem ResultsAvailableSlot_emits_first_1000 :
  forall (id : Z) (results : ResultList) (s : TidalSearch),
    let r := ResultsAvailableSlot id results s in
    let n := List.length results in
    state_of r = s
    /\ ((results = [] /\ effects_of r = [])
        \/ ((0 < n <= 1000)%nat
            /\ effects_of r = [emit_AddResults id (map with_cache_key results)]
            /\ List.length (map with_cache_key results) = n)
        \/ ((1000 < n)%nat
            /\ exists emitted,
                effects_of r = [emit_AddResults id emitted]
                /\ emitted = map with_cache_key (firstn 1000 results)
                /\ List.length emitted = 1000%nat
                /\ map metadata_ emitted = firstn 1000 (map metadata_ results))).
Proof.
  intros id results s r n. subst r n. unfold ResultsAvailableSlot.
  destruct results as [|x results]; [split; [reflexivity | left; split; reflexivity]|].
  cbv beta iota delta [isEmpty].
  set (l := x :: results).
  split; [reflexivity|]. right.
  unfold kMaxResultsPerEmission.
  destruct (Z.gtb_spec (Z.of_nat (List.length l)) 1000) as [Hgt|Hle].
  - right. split; [lia|].
    exists (map with_cache_key (firstn 1000 l)).
    change (Z.to_nat 1000) with 1000%nat.
    split; [reflexivity|]. split; [reflexivity|]. split.
    + rewrite length_map, length_firstn. lia.
    + rewrite with_cache_key_metadata, firstn_map. reflexivity.
  - left. split; [subst l; simpl List.length in *; lia|].
    split; [reflexivity | apply length_map].
Qed.

(** ** LoadTracks *)

(** C10: [LoadTracks] returns the null pointer exactly for the empty list;
    for a non-empty list the mime data holds the results' songs and the
    songs' urls, both in the order of the results. *)
Theorem LoadTracks_null_iff_empty :
  forall results : ResultList,
    (LoadTracks results = None <-> results = [])
    /\ (results = []
        \/ exists mime_data,
            LoadTracks results = Some mime_data
            /\ songs mime_data = map metadata_ results
            /\ urls mime_data = map url (map metadata_ results)).
Proof.
  intros results. unfold LoadTracks. destruct results as [|x results].
  - split; [split; reflexivity | left; reflexivity].
  - cbv beta iota delta [isEmpty]. split; [split; discriminate|].
    right. eexists. split; [reflexivity|]. simpl songs. simpl urls.
    rewrite !collect_map, map_map. split; reflexivity.
Qed.

(** ** Thumbnail cache and album art *)

Lemma cache_find_insert key pixmap c :
  cache_find key (cache_insert key pixmap c) = Some pixmap.
Proof. unfold cache_insert. simpl. rewrite String.eqb_refl. reflexivity. Qed.

Ltac run_member :=
  cbv beta iota zeta delta
    [bind this modify log ret state_of effects_of value_of fst snd
     set_searches_next_id set_art_searches_next_id set_delayed_searches
     set_pending_searches set_pending_art_searches set_cover_loader_tasks
     set_pixmap_cache set_timers
     searches_next_id_ art_searches_next_id_ delayed_searches_
     pending_searches_ pending_art_searches_ cover_loader_tasks_
     pixmap_cache_ timers_ app].

Lemma HandleLoadedArt_run id image s :
  HandleLoadedArt id image s
  = let taken := qmap_take EmptyString id (pending_art_searches_ s) in
    (tt,
     set_pixmap_cache
       (cache_insert (fst taken) (fromImage image) (pixmap_cache_ s))
       (set_pending_art_searches (snd taken) s),
     [emit_ArtLoaded id (fromImage image)]).
Proof.
  unfold HandleLoadedArt. run_member.
  destruct (qmap_take EmptyString id _) as [key rest]. reflexivity.
Qed.

Lemma AlbumArtLoaded_known loader_id image s id :
  qmap_find loader_id (cover_loader_tasks_ s) = Some id ->
  AlbumArtLoaded loader_id image s
  = HandleLoadedArt id image
      (set_cover_loader_tasks (qmap_erase loader_id (cover_loader_tasks_ s)) s).
Proof.
  intros H. unfold AlbumArtLoaded, qmap_contains, qmap_take.
  cbv beta iota zeta delta [bind this]. rewrite H. cbv beta iota zeta delta [negb].
  cbv beta iota zeta delta [modify].
  destruct (HandleLoadedArt id image _) as [[u s'] effs]. destruct u. reflexivity.
Qed.

Lemma AlbumArtLoaded_unknown loader_id image s :
  qmap_find loader_id (cover_loader_tasks_ s) = None ->
  AlbumArtLoaded loader_id image s = (tt, s, []).
Proof.
  intros H. unfold AlbumArtLoaded, qmap_contains.
  cbv beta iota zeta delta [bind this]. rewrite H. reflexivity.
Qed.

Lemma LoadArtAsync_run result loader_id s :
  LoadArtAsync result loader_id s
  = (art_searches_next_id_ s,
     mkTidalSearch (searches_next_id_ s) (int_succ (art_searches_next_id_ s))
       (delayed_searches_ s) (pending_searches_ s)
       (qmap_insert (art_searches_next_id_ s) (pixmap_cache_key_ result)
                    (pending_art_searches_ s))
       (qmap_insert loader_id (art_searches_next_id_ s) (cover_loader_tasks_ s))
       (pixmap_cache_ s) (timers_ s),
     [loader_LoadImageAsync (metadata_ result) loader_id]).
Proof. reflexivity. Qed.

(** C8: the cache key is the prefix tidal: followed by the result's url, so
    results with the same url have the same key; a pixmap inserted in the
    cache under a key is what a lookup of that key finds; and once the art
    requested for a result has been loaded, [FindCachedPixmap] finds, for
    that result, the pixmap made of the loaded image. *)
Theorem cache_key_of_url_and_insert_then_find :
  forall (r1 r2 result : Result) (s : TidalSearch) (loader_id : Z)
         (image : QImage) (key : QString) (pixmap : QPixmap) (c : PixmapCache),
    url (metadata_ r1) = url (metadata_ r2) ->
    PixmapCacheKey r1 = PixmapCacheKey r2
    /\ PixmapCacheKey r1 = String.append "tidal:" (url (metadata_ r1))
    /\ cache_find key (cache_insert key pixmap c) = Some pixmap
    /\ FindCachedPixmap result
         (state_of (AlbumArtLoaded loader_id image
                      (state_of (LoadArtAsync result loader_id s))))
       = Some (fromImage image).
Proof.
  intros r1 r2 result s loader_id image key pixmap c Hurl.
  split; [unfold PixmapCacheKey; rewrite Hurl; reflexivity|].
  split; [reflexivity|].
  split; [apply cache_find_insert|].
  rewrite LoadArtAsync_run. unfold state_of at 2. simpl snd. simpl fst.
  erewrite AlbumArtLoaded_known
    by (simpl cover_loader_tasks_; apply qmap_find_insert_same).
  rewrite HandleLoadedArt_run. unfold qmap_take.
  cbv beta iota zeta delta [state_of fst snd set_cover_loader_tasks
    set_pixmap_cache set_pending_art_searches pending_art_searches_
    pixmap_cache_ cover_loader_tasks_ FindCachedPixmap
    searches_next_id_ art_searches_next_id_ delayed_searches_
    pending_searches_ timers_].
  rewrite qmap_find_insert_same. apply cache_find_insert.
Qed.

Lemma cache_key_of_url_and_insert_then_find_witness :
  PixmapCacheKey (mkResult (mkSong "tidal://track/7"%string 1) EmptyString)
  = PixmapCacheKey (mkResult (mkSong "tidal://track/7"%string 2) "stale"%string)
  /\ FindCachedPixmap (mkResult (mkSong "tidal://track/7"%string 1) "tidal:tidal://track/7"%string)
       (state_of (AlbumArtLoaded 40 (Decoded 32 32 [])
          (state_of (LoadArtAsync
             (mkResult (mkSong "tidal://track/7"%string 1) "tidal:tidal://track/7"%string)
             40 constructed))))
     = Some (fromImage (Decoded 32 32 [])).
Proof.
  pose proof (cache_key_of_url_and_insert_then_find
    (mkResult (mkSong "tidal://track/7"%string 1) EmptyString)
    (mkResult (mkSong "tidal://track/7"%string 2) "stale"%string)
    (mkResult (mkSong "tidal://track/7"%string 1) "tidal:tidal://track/7"%string)
    constructed 40 (Decoded 32 32 []) EmptyString
    (fromImage NullImage) [] eq_refl) as H.
  split; [exact (proj1 H) | exact (proj2 (proj2 (proj2 H)))].
Defined.

Lemma int_succ_fresh n : int_succ n <> n.
Proof.
  unfold int_succ, wrap_int. intros E.
  pose proof (Z.div_mod (n + 1 + 2147483648) 4294967296 ltac:(lia)) as D.
  pose proof (Z.mod_pos_bound (n + 1 + 2147483648) 4294967296 ltac:(lia)) as B.
  lia.
Qed.

(** C7, as amended: art requested twice before the first fetch completes
    (also for one and the same cache key) issues two fetches, one per
    request, under two different request ids; the loader having given the
    two fetches different ids, each request id gets its own [ArtLoaded]
    when the reply to its fetch arrives, in whichever order the replies
    come. *)
Theorem art_requests_fetched_apart_each_completed :
  forall (s : TidalSearch) (r1 r2 : Result) (l1 l2 : Z) (img1 img2 : QImage),
    l1 <> l2 ->
    let a := LoadArtAsync r1 l1 s in
    let b := LoadArtAsync r2 l2 (state_of a) in
    fetches (effects_of a ++ effects_of b)
    = [(metadata_ r1, l1); (metadata_ r2, l2)]
    /\ value_of a <> value_of b
    /\ (let x := AlbumArtLoaded l1 img1 (state_of b) in
        let y := AlbumArtLoaded l2 img2 (state_of x) in
        effects_of x = [emit_ArtLoaded (value_of a) (fromImage img1)]
        /\ effects_of y = [emit_ArtLoaded (value_of b) (fromImage img2)])
    /\ (let y := AlbumArtLoaded l2 img2 (state_of b) in
        let x := AlbumArtLoaded l1 img1 (state_of y) in
        effects_of y = [emit_ArtLoaded (value_of b) (fromImage img2)]
        /\ effects_of x = [emit_ArtLoaded (value_of a) (fromImage img1)]).
Proof.
  intros s r1 r2 l1 l2 img1 img2 Hne a b. subst a b.
  rewrite !LoadArtAsync_run.
  cbv beta iota zeta delta [state_of effects_of value_of fst snd
    art_searches_next_id_ searches_next_id_ delayed_searches_
    pending_searches_ pending_art_searches_ cover_loader_tasks_
    pixmap_cache_ timers_].
  split; [reflexivity|].
  split; [intros E; symmetry in E; exact (int_succ_fresh _ E)|].
  split.
  - erewrite (AlbumArtLoaded_known l1).
    2:{ simpl cover_loader_tasks_.
        rewrite qmap_find_insert_other by exact Hne.
        apply qmap_find_insert_same. }
    rewrite HandleLoadedArt_run. split; [reflexivity|].
    erewrite (AlbumArtLoaded_known l2).
    2:{ simpl. rewrite qmap_find_erase_other by congruence.
        apply qmap_find_insert_same. }
    rewrite HandleLoadedArt_run. reflexivity.
  - erewrite (AlbumArtLoaded_known l2).
    2:{ simpl cover_loader_tasks_. apply qmap_find_insert_same. }
    rewrite HandleLoadedArt_run. split; [reflexivity|].
    erewrite (AlbumArtLoaded_known l1).
    2:{ simpl. rewrite qmap_find_erase_other by exact Hne.
        rewrite qmap_find_insert_other by exact Hne.
        apply qmap_find_insert_same. }
    rewrite HandleLoadedArt_run. reflexivity.
Qed.

Lemma art_requests_fetched_apart_each_completed_witness :
  let a := LoadArtAsync sample_result 40 constructed in
  let b := LoadArtAsync sample_result 41 (state_of a) in
  fetches (effects_of a ++ effects_of b)
  = [(sample_song, 40); (sample_song, 41)]
  /\ effects_of (AlbumArtLoaded 40 NullImage (state_of b))
     = [emit_ArtLoaded 1 (fromImage NullImage)].
Proof.
  pose proof (art_requests_fetched_apart_each_completed
                constructed sample_result sample_result 40 41
                NullImage NullImage ltac:(lia)) as H.
  split; [exact (proj1 H) | exact (proj1 (proj1 (proj2 (proj2 H))))].
Defined.

(** C7, the claim as stated fails: two requests for the same cache key,
    the second made before the first fetch has completed, issue two
    fetches for the same song; nothing is deduplicated. *)
Lemma art_requests_same_key_fetch_twice :
  let a := LoadArtAsync sample_result 40 constructed in
  let b := LoadArtAsync sample_result 41 (state_of a) in
  qmap_contains 40 (cover_loader_tasks_ (state_of a)) = true
  /\ fetches (effects_of a ++ effects_of b)
     = [(sample_song, 40); (sample_song, 41)]
  /\ List.length (fetches (effects_of a ++ effects_of b)) = 2%nat.
Proof. repeat split. Qed.

(** An image reply for a loader id that is not in [cover_loader_tasks_]
    changes nothing and emits nothing. *)
Lemma AlbumArtLoaded_unknown_ignored loader_id image s :
  qmap_contains loader_id (cover_loader_tasks_ s) = false ->
  AlbumArtLoaded loader_id image s = (tt, s, []).
Proof. intros H. apply AlbumArtLoaded_unknown, qmap_contains_false, H. Qed.

(** C2, the code at the failing input: a backend reply whose correlation id
    is in no table is not ignored.  [SearchDone] takes a default-constructed
    pending state and emits [ResultsAvailable], [AddResults] and
    [SearchFinished] under that state's origin. *)
Theorem SearchDone_unknown_id_still_notifies :
  forall (default_orig_id : Z) (song : Song),
    let r := SearchDone default_orig_id 7 [song] constructed in
    qmap_contains 7 (pending_searches_ constructed) = false
    /\ state_of r = constructed
    /\ effects_of r
       = [emit_ResultsAvailable default_orig_id [mkResult song EmptyString];
          emit_AddResults default_orig_id
            [mkResult song (String.append "tidal:" (url song))];
          emit_SearchFinished default_orig_id].
Proof. intros d song. repeat split. Qed.

(** ** ScaleAndPad *)

Lemma QSize_eqb_eq (a b : QSize) : QSize_eqb a b = true <-> a = b.
Proof.
  destruct a as [a1 a2], b as [b1 b2]. unfold QSize_eqb. simpl.
  rewrite andb_true_iff, !Z.eqb_eq. split; [intros [-> ->]; reflexivity|].
  intros [= -> ->]. split; reflexivity.
Qed.

Lemma size_positive image :
  isNull image = false -> 0 < width image /\ 0 < height image.
Proof. destruct image; simpl; intros H; try discriminate; split; lia. Qed.

Lemma QImage_scaled_size image :
  isNull image = false ->
  size (QImage_scaled image (kArtHeight, kArtHeight))
  = fit_in_box (size image).
Proof.
  intros Hnull. unfold QImage_scaled, fit_in_box. rewrite Hnull.
  change ((fst (kArtHeight, kArtHeight) <=? 0)
          || (snd (kArtHeight, kArtHeight) <=? 0)) with false.
  cbv beta iota zeta. change (kArtHeight, kArtHeight) with ((32, 32) : QSize).
  set (n := QSize_scaled_keep (size image) (32, 32)).
  destruct (QSize_eqb (Z.max (fst n) 1, Z.max (snd n) 1) (size image)) eqn:E.
  - apply QSize_eqb_eq in E. symmetry. exact E.
  - unfold size. simpl width. simpl height.
    rewrite !Z2Pos.id by lia. reflexivity.
Qed.

Lemma fit_in_box_props (w h : Z) :
  0 < w -> 0 < h ->
  let cw := fst (fit_in_box (w, h)) in
  let ch := snd (fit_in_box (w, h)) in
  1 <= cw <= 32 /\ 1 <= ch <= 32
  /\ (cw = 32 \/ ch = 32)
  /\ (cw = 1 \/ ch = 1 \/ Z.abs (cw * h - ch * w) < Z.max w h).
Proof.
  intros Hw Hh. unfold fit_in_box, QSize_scaled_keep, kArtHeight.
  destruct (Z.eqb_spec w 0); [lia|]. destruct (Z.eqb_spec h 0); [lia|].
  cbv beta iota zeta delta [orb fst snd].
  rewrite !Z.quot_div_nonneg by lia.
  pose proof (Z.mul_div_le (32 * w) h Hh) as Q1.
  pose proof (Z.mul_succ_div_gt (32 * w) h Hh) as Q2.
  pose proof (Z.div_pos (32 * w) h ltac:(lia) Hh) as Q3.
  set (q := 32 * w / h) in *.
  destruct (Z.leb_spec q 32) as [Hq|Hq]; cbv beta iota zeta delta [fst snd].
  - assert (Z.max 32 1 = 32) as -> by reflexivity.
    split; [lia|]. split; [lia|]. split; [right; reflexivity|].
    destruct (Z.eq_dec q 0) as [Z0|NZ]; [left; lia|].
    right; right. rewrite Z.max_l by lia. nia.
  - pose proof (Z.mul_div_le (32 * h) w Hw) as P1.
    pose proof (Z.mul_succ_div_gt (32 * h) w Hw) as P2.
    pose proof (Z.div_pos (32 * h) w ltac:(lia) Hw) as P3.
    set (p := 32 * h / w) in *.
    assert (Z.max 32 1 = 32) as -> by reflexivity.
    assert (p <= 32) by nia.
    split; [lia|]. split; [lia|]. split; [left; reflexivity|].
    destruct (Z.eq_dec p 0) as [Z0|NZ]; [right; left; lia|].
    right; right. rewrite Z.max_l by lia. nia.
Qed.

(** C9, as amended: [ScaleAndPad] returns a null image for a null image and
    an image that is 32 x 32 already as it is.  Any other image is rescaled
    to the largest size of its aspect ratio (up to rounding, and no side
    below 1) that fits the 32 x 32 box, so that one side of the copy is 32
    and the other at most 32; the copy is the result when it fills the box,
    and is otherwise drawn centered on a transparent 32 x 32 canvas.  The
    result for an image that is not null is always 32 x 32, never more. *)
Theorem ScaleAndPad_fits_box :
  forall image : QImage,
    (isNull image = true /\ ScaleAndPad image = NullImage)
    \/ (size image = (32, 32) /\ ScaleAndPad image = image)
    \/ (isNull image = false /\ size image <> (32, 32)
        /\ let copy := QImage_scaled image (32, 32) in
           size (ScaleAndPad image) = (32, 32)
           /\ 1 <= width copy <= 32 /\ 1 <= height copy <= 32
           /\ (width copy = 32 \/ height copy = 32)
           /\ (width copy = 1 \/ height copy = 1
               \/ Z.abs (width copy * height image - height copy * width image)
                  < Z.max (width image) (height image))
           /\ ((size copy = (32, 32) /\ ScaleAndPad image = copy)
               \/ exists x y,
                   ScaleAndPad image = Painted 32 32 x y copy
                   /\ 2 * x <= 32 - width copy <= 2 * x + 1
                   /\ 2 * y <= 32 - height copy <= 2 * y + 1)).
Proof.
  intros image. unfold ScaleAndPad.
  destruct (isNull image) eqn:Hnull; [left; split; reflexivity|].
  right. change (kArtHeight, kArtHeight) with ((32, 32) : QSize).
  destruct (QSize_eqb (size image) (32, 32)) eqn:Hsz.
  - left. apply QSize_eqb_eq in Hsz. split; [exact Hsz | reflexivity].
  - right. split; [reflexivity|].
    split; [intros E; apply QSize_eqb_eq in E; congruence|].
    cbv zeta.
    pose proof (QImage_scaled_size image Hnull) as S.
    change (kArtHeight, kArtHeight) with ((32, 32) : QSize) in S.
    destruct (size_positive image Hnull) as [Hw Hh].
    pose proof (fit_in_box_props (width image) (height image) Hw Hh) as P.
    cbv zeta in P. fold (size image) in P. rewrite <- S in P.
    unfold size at 1 2 3 4 5 6 in P. simpl fst in P. simpl snd in P.
    destruct P as (P1 & P2 & P3 & P4).
    set (copy := QImage_scaled image (32, 32)) in *.
    destruct (QSize_eqb (size copy) (32, 32)) eqn:Hc.
    + apply QSize_eqb_eq in Hc.
      repeat (split; [assumption|]). left. split; [exact Hc | reflexivity].
    + split; [reflexivity|]. repeat (split; [assumption|]).
      right. exists ((32 - width copy) ÷ 2), ((32 - height copy) ÷ 2).
      split; [reflexivity|].
      rewrite !Z.quot_div_nonneg by lia.
      pose proof (Z.div_mod (32 - width copy) 2 ltac:(lia)).
      pose proof (Z.mod_pos_bound (32 - width copy) 2 ltac:(lia)).
      pose proof (Z.div_mod (32 - height copy) 2 ltac:(lia)).
      pose proof (Z.mod_pos_bound (32 - height copy) 2 ltac:(lia)).
      lia.
Qed.

(** C9, the claim as stated fails: an image smaller than the box is not
    scaled down but enlarged to fill it, and a null image, which is not
    32 x 32, is not put on a canvas: the result is null. *)
Lemma ScaleAndPad_enlarges_small_image :
  size (Decoded 16 16 []) = (16, 16)
  /\ ScaleAndPad (Decoded 16 16 []) = Resampled 32 32 (Decoded 16 16 [])
  /\ size (ScaleAndPad (Decoded 16 16 [])) = (32, 32)
  /\ size NullImage <> (32, 32)
  /\ ScaleAndPad NullImage = NullImage.
Proof. repeat split. discriminate. Qed.

(** ** The member functions, step by step *)

Lemma SearchAsync_id_run id query searchby service_id s :
  SearchAsync_id id query searchby service_id s
  = (tt,
     set_pending_searches
       (qmap_insert service_id (mkPendingState id (TokenizeQuery query))
                    (pending_searches_ s)) s,
     [backend_Search id query searchby service_id]).
Proof. reflexivity. Qed.

Lemma DoSearchAsync_run id query searchby timer_id s :
  DoSearchAsync id query searchby timer_id s
  = (tt,
     mkTidalSearch (searches_next_id_ s) (art_searches_next_id_ s)
       (qmap_insert timer_id (mkDelayedSearch id query searchby)
                    (delayed_searches_ s))
       (pending_searches_ s) (pending_art_searches_ s)
       (cover_loader_tasks_ s) (pixmap_cache_ s) (timer_id :: timers_ s),
     [qt_startTimer kDelayedSearchTimeoutMs timer_id]).
Proof. reflexivity. Qed.

Lemma SearchAsync_run query searchby timer_id s :
  SearchAsync query searchby timer_id s
  = (searches_next_id_ s,
     mkTidalSearch (int_succ (searches_next_id_ s)) (art_searches_next_id_ s)
       (qmap_insert timer_id
          (mkDelayedSearch (searches_next_id_ s) query searchby)
          (delayed_searches_ s))
       (pending_searches_ s) (pending_art_searches_ s)
       (cover_loader_tasks_ s) (pixmap_cache_ s) (timer_id :: timers_ s),
     [emit_SearchAsyncSig (searches_next_id_ s) query searchby;
      qt_startTimer kDelayedSearchTimeoutMs timer_id]).
Proof. reflexivity. Qed.

Lemma CancelSearch_run id s :
  CancelSearch id s
  = match cancel_scan id (delayed_searches_ s) with
    | Some (key, rest) =>
        (tt,
         mkTidalSearch (searches_next_id_ s) (art_searches_next_id_ s) rest
           (pending_searches_ s) (pending_art_searches_ s)
           (cover_loader_tasks_ s) (pixmap_cache_ s)
           (filter (fun t => negb (t =? key)) (timers_ s)),
         [qt_killTimer key])
    | None => (tt, s, [])
    end.
Proof.
  unfold CancelSearch. cbv beta iota zeta delta [bind this].
  destruct (cancel_scan id (delayed_searches_ s)) as [[key rest]|]; reflexivity.
Qed.

Lemma timerEvent_run timer_id service_id s :
  timerEvent timer_id service_id s
  = match qmap_find timer_id (delayed_searches_ s) with
    | Some it =>
        (tt,
         mkTidalSearch (searches_next_id_ s) (art_searches_next_id_ s)
           (qmap_erase timer_id (delayed_searches_ s))
           (qmap_insert service_id
              (mkPendingState (id_ it) (TokenizeQuery (query_ it)))
              (pending_searches_ s))
           (pending_art_searches_ s) (cover_loader_tasks_ s)
           (pixmap_cache_ s) (timers_ s),
         [backend_Search (id_ it) (query_ it) (searchby_ it) service_id])
    | None => (tt, s, [])
    end.
Proof.
  unfold timerEvent. cbv beta iota zeta delta [bind this].
  destruct (qmap_find timer_id (delayed_searches_ s)); reflexivity.
Qed.

Lemma ResultsAvailableSlot_run id results s :
  ResultsAvailableSlot id results s
  = (tt, s,
     if isEmpty results then []
     else [emit_AddResults id
             (map with_cache_key
                (if Z.of_nat (List.length results) >? kMaxResultsPerEmission
                 then firstn (Z.to_nat kMaxResultsPerEmission) results
                 else results))]).
Proof.
  unfold ResultsAvailableSlot. destruct (isEmpty results); reflexivity.
Qed.

(** No pending search has the origin [id]: the test of
    [MaybeSearchFinished]. *)
Lemma MaybeSearchFinished_run id s :
  MaybeSearchFinished id s
  = (tt, s,
     if isEmpty (qmap_keys_of PendingState_eqb (mkPendingState id [])
                              (pending_searches_ s))
     then [emit_SearchFinished id] else []).
Proof.
  unfold MaybeSearchFinished. cbv beta iota zeta delta [bind this].
  destruct (isEmpty _); reflexivity.
Qed.

Lemma SearchDone_run d service_id songs s :
  let taken := qmap_take (PendingState_default d) service_id
                         (pending_searches_ s) in
  let search_id := orig_id_ (fst taken) in
  let ret_ := map (fun song => mkResult song EmptyString) songs in
  SearchDone d service_id songs s
  = (tt,
     set_pending_searches (snd taken) s,
     emit_ResultsAvailable search_id ret_
       :: effects_of (ResultsAvailableSlot search_id ret_ s)
       ++ (if isEmpty (qmap_keys_of PendingState_eqb
                         (mkPendingState search_id []) (snd taken))
           then [emit_SearchFinished search_id] else [])).
Proof.
  cbv zeta. unfold SearchDone. cbv beta iota zeta delta [bind this].
  rewrite collect_map.
  destruct (qmap_take (PendingState_default d) service_id (pending_searches_ s))
    as [state rest] eqn:T.
  cbv beta iota zeta delta [modify log fst snd].
  rewrite !ResultsAvailableSlot_run, MaybeSearchFinished_run.
  cbv beta iota zeta delta [effects_of snd fst app]. simpl pending_searches_.
  reflexivity.
Qed.

Lemma keys_of_empty_iff O (m : QMap PendingState) :
  isEmpty (qmap_keys_of PendingState_eqb (mkPendingState O []) m) = true
  <-> forall k st, In (k, st) m -> orig_id_ st <> O.
Proof.
  unfold qmap_keys_of, PendingState_eqb. simpl orig_id_.
  induction m as [|[k st] m IH]; simpl.
  - split; [intros _ k st [] | reflexivity].
  - destruct (Z.eqb_spec (orig_id_ st) O) as [E|E]; simpl.
    + split; [discriminate|]. intros H. exfalso. exact (H k st (or_introl eq_refl) E).
    + rewrite IH. split.
      * intros H k' st' [[= <- <-]|Hin]; [exact E | exact (H _ _ Hin)].
      * intros H k' st' Hin. apply (H k' st'). right; exact Hin.
Qed.

(** ** Runs *)

Lemma run_snoc d evs ev : run d (evs ++ [ev]) = run_step d (run d evs) ev.
Proof. unfold run. rewrite fold_left_app. reflexivity. Qed.

Lemma outstanding_snoc tr item :
  outstanding (tr ++ [item]) = outstanding_step (outstanding tr) item.
Proof. unfold outstanding. rewrite fold_left_app. reflexivity. Qed.

Lemma dispatches_app a b : dispatches (a ++ b) = dispatches a ++ dispatches b.
Proof. unfold dispatches. apply flat_map_app. Qed.

Lemma filter_all {A : Type} (l : list A) : filter (fun _ => true) l = l.
Proof. induction l as [|x l IH]; simpl; [|rewrite IH]; reflexivity. Qed.

(** What an event does to the table of pending searches, which backend
    dispatches it makes, and whether it can emit [SearchFinished]. *)
Lemma step_dispatcher d ev s :
  let res := step d ev s in
  (exists tid sid it,
      ev = qt_timerEvent tid sid
      /\ qmap_find tid (delayed_searches_ s) = Some it
      /\ pending_searches_ (state_of res)
         = qmap_insert sid (mkPendingState (id_ it) (TokenizeQuery (query_ it)))
                       (pending_searches_ s)
      /\ dispatches (effects_of res) = [(id_ it, sid)]
      /\ no_finished (effects_of res))
  \/ (exists sid songs,
         ev = service_SearchResults sid songs
         /\ pending_searches_ (state_of res)
            = qmap_erase sid (pending_searches_ s)
         /\ dispatches (effects_of res) = [])
  \/ ((forall sid songs, ev <> service_SearchResults sid songs)
      /\ pending_searches_ (state_of res) = pending_searches_ s
      /\ dispatches (effects_of res) = []
      /\ no_finished (effects_of res)).
Proof.
  cbv zeta. destruct ev as [q m t | i q m t | i | t sid | sid sgs | i e | r l | l im];
    unfold step.
  - right; right. cbv beta iota zeta delta [bind ret].
    rewrite SearchAsync_run. repeat split; try discriminate.
    intros O [H|[H|[]]]; discriminate.
  - right; right. rewrite DoSearchAsync_run. repeat split; try discriminate.
    intros O [H|[]]; discriminate.
  - right; right. rewrite CancelSearch_run.
    destruct (cancel_scan i (delayed_searches_ s)) as [[key rest]|];
      repeat split; try discriminate.
    + intros O [H|[]]; discriminate.
    + intros O [].
  - rewrite timerEvent_run.
    destruct (qmap_find t (delayed_searches_ s)) as [it|] eqn:F.
    + left. exists t, sid, it. repeat split.
      * exact F.
      * intros O [H|[]]; discriminate.
    + right; right. repeat split; try discriminate. intros O [].
  - right; left. exists sid, sgs. split; [reflexivity|].
    pose proof (SearchDone_run d sid sgs s) as R. cbv zeta in R. rewrite R.
    split; [reflexivity|].
    unfold effects_of at 1. simpl snd.
    rewrite ResultsAvailableSlot_run. unfold effects_of. simpl snd.
    change (dispatches (?e :: ?l)) with (dispatches [e] ++ dispatches l).
    rewrite dispatches_app.
    repeat match goal with |- context [if ?b then _ else _] => destruct b end;
      reflexivity.
  - right; right. repeat split; try discriminate. intros O [H|[]]; discriminate.
  - right; right. cbv beta iota zeta delta [bind ret].
    rewrite LoadArtAsync_run. repeat split; try discriminate.
    intros O [H|[]]; discriminate.
  - right; right.
    destruct (qmap_find l (cover_loader_tasks_ s)) as [id|] eqn:F.
    + rewrite (AlbumArtLoaded_known _ _ _ _ F), HandleLoadedArt_run.
      repeat split; try discriminate. intros O [H|[]]; discriminate.
    + rewrite (AlbumArtLoaded_unknown _ _ _ F).
      repeat split; try discriminate. intros O [].
Qed.

Lemma dispatcher_inv_run d evs :
  env_respected (run d evs) = true -> dispatcher_inv (run d evs).
Proof.
  induction evs as [|ev evs IH] using rev_ind.
  - intros _. split; [exact I|]. intros O sid. simpl. split; [intros []|].
    intros (st & H & _). discriminate.
  - rewrite run_snoc. set (r := run d evs) in *.
    unfold run_step at 1. simpl env_respected. intros Henv.
    apply andb_true_iff in Henv. destruct Henv as [Hr Hok].
    destruct (IH Hr) as [Hwf Htr]. unfold dispatcher_inv, run_step.
    simpl now. simpl transcript. rewrite outstanding_snoc.
    unfold outstanding_step. simpl fst. simpl snd.
    destruct (step_dispatcher d ev (now r))
      as [(tid & sid & it & -> & F & -> & -> & _)
         |[(sid & songs & -> & -> & ->)
          |(Hev & -> & -> & _)]].
    + split; [apply qmap_insert_wf; exact Hwf|].
      simpl answers. rewrite filter_all.
      simpl in Hok. apply negb_true_iff, qmap_contains_false in Hok.
      intros O sid'. rewrite in_app_iff, (Htr O sid'). simpl In. split.
      * intros [(st & H1 & H2)|[[= <- <-]|[]]].
        -- exists st. split; [|exact H2].
           rewrite qmap_find_insert_other; [exact H1 | congruence].
        -- eexists. split; [apply qmap_find_insert_same | reflexivity].
      * intros (st & H1 & H2). destruct (Z.eq_dec sid' sid) as [->|Hne].
        -- rewrite qmap_find_insert_same in H1. injection H1 as <-.
           right; left. simpl in H2. subst O. reflexivity.
        -- rewrite qmap_find_insert_other in H1 by exact Hne.
           left. exists st. split; assumption.
    + split; [apply qmap_erase_wf; exact Hwf|].
      rewrite app_nil_r. intros O sid'. rewrite filter_In, (Htr O sid').
      simpl answers. simpl snd. split.
      * intros [(st & H1 & H2) Hne]. apply negb_true_iff, Z.eqb_neq in Hne.
        exists st. split; [|exact H2].
        rewrite qmap_find_erase_other by exact Hne. exact H1.
      * intros (st & H1 & H2). destruct (Z.eq_dec sid' sid) as [->|Hne].
        -- rewrite qmap_find_erase_same in H1 by exact Hwf. discriminate.
        -- rewrite qmap_find_erase_other in H1 by exact Hne.
           split; [exists st; split; assumption|].
           apply negb_true_iff, Z.eqb_neq. exact Hne.
    + split; [exact Hwf|]. rewrite app_nil_r.
      assert (filter (fun p => negb (answers ev p)) (outstanding (transcript r))
              = outstanding (transcript r)) as ->.
      { destruct ev; try apply filter_all. exfalso. eapply Hev. reflexivity. }
      exact Htr.
Qed.




(** ** The debounce scheduler *)

Lemma origins_insert_In o k v (m : QMap DelayedSearch) :
  In o (origins (qmap_insert k v m)) -> o = id_ v \/ In o (origins m).
Proof.
  unfold origins. induction m as [|[k' v'] m IH]; simpl.
  - intros [H|[]]; left; congruence.
  - destruct (k <? k'); [simpl; intros [H|H]; [left; congruence | right; exact H]|].
    destruct (k =? k'); simpl.
    + intros [H|H]; [left; congruence | right; right; exact H].
    + intros [H|H]; [right; left; exact H|].
      destruct (IH H) as [E|E]; [left; exact E | right; right; exact E].
Qed.

Lemma origins_insert_NoDup k v (m : QMap DelayedSearch) :
  NoDup (origins m) -> ~ In (id_ v) (origins m) ->
  NoDup (origins (qmap_insert k v m)).
Proof.
  induction m as [|[k' v'] m IH]; simpl; intros Hnd Hfresh.
  - constructor; [intros [] | constructor].
  - inversion Hnd as [|x l Hx Hl]; subst.
    destruct (k <? k'); [constructor; assumption|].
    destruct (k =? k').
    + constructor; [|exact Hl]. intros Hin. apply Hfresh. right; exact Hin.
    + change (NoDup (id_ v' :: origins (qmap_insert k v m))).
      constructor.
      * intros Hin. apply origins_insert_In in Hin. destruct Hin as [E|Hin].
        -- apply Hfresh. left. exact E.
        -- exact (Hx Hin).
      * apply IH; [exact Hl|]. intros Hin. apply Hfresh. right; exact Hin.
Qed.

Lemma origins_erase_In o k (m : QMap DelayedSearch) :
  In o (origins (qmap_erase k m)) -> In o (origins m).
Proof.
  unfold origins. induction m as [|[k' v'] m IH]; simpl; [auto|].
  destruct (k =? k'); simpl; [auto|]. intros [H|H]; auto.
Qed.

Lemma origins_erase_NoDup k (m : QMap DelayedSearch) :
  NoDup (origins m) -> NoDup (origins (qmap_erase k m)).
Proof.
  induction m as [|[k' v'] m IH]; simpl; intros Hnd; [exact Hnd|].
  inversion Hnd as [|x l Hx Hl]; subst.
  destruct (k =? k'); [exact Hl|].
  change (NoDup (id_ v' :: origins (qmap_erase k m))).
  constructor; [|apply IH; exact Hl].
  intros Hin. apply Hx. eapply origins_erase_In. exact Hin.
Qed.

Lemma origins_find_In k e (m : QMap DelayedSearch) :
  qmap_find k m = Some e -> In (id_ e) (origins m).
Proof.
  intros H. apply qmap_find_In in H. unfold origins.
  apply (in_map (fun kv => id_ (snd kv)) _ _ H).
Qed.

Lemma origins_erase_found k e (m : QMap DelayedSearch) :
  qmap_find k m = Some e -> NoDup (origins m) ->
  ~ In (id_ e) (origins (qmap_erase k m)).
Proof.
  induction m as [|[k' v'] m IH]; simpl; [discriminate|].
  intros Hf Hnd. inversion Hnd as [|x l Hx Hl]; subst.
  destruct (k =? k').
  - injection Hf as <-. exact Hx.
  - change (~ In (id_ e) (id_ v' :: origins (qmap_erase k m))).
    intros [E|Hin].
    + apply Hx. simpl. rewrite E. eapply origins_find_In. exact Hf.
    + exact (IH Hf Hl Hin).
Qed.

Lemma cancel_scan_none id (m : QMap DelayedSearch) :
  cancel_scan id m = None <-> ~ In id (origins m).
Proof.
  induction m as [|[k v] m IH]; simpl.
  - split; [intros _ [] | reflexivity].
  - destruct (Z.eqb_spec (id_ v) id) as [E|E].
    + split; [discriminate|]. intros H. exfalso. apply H. left; exact E.
    + destruct (cancel_scan id m) as [[key rest]|].
      * split; [discriminate|]. intros H. exfalso.
        assert (~ In id (origins m)) as H' by (intros X; apply H; right; exact X).
        apply IH in H'. discriminate.
      * split; [|reflexivity]. intros _ [X|X]; [exact (E X)|].
        exact (proj1 IH eq_refl X).
Qed.

Lemma cancel_scan_some id key rest (m : QMap DelayedSearch) :
  cancel_scan id m = Some (key, rest) ->
  (forall o, In o (origins rest) -> In o (origins m))
  /\ (NoDup (origins m) -> NoDup (origins rest) /\ ~ In id (origins rest))
  /\ (qmap_wf m ->
      rest = qmap_erase key m
      /\ exists e, qmap_find key m = Some e /\ id_ e = id).
Proof.
  revert key rest. induction m as [|[k v] m IH]; simpl; intros key rest;
    [discriminate|].
  destruct (Z.eqb_spec (id_ v) id) as [E|E].
  - intros [= <- <-]. split; [intros o H; right; exact H|]. split.
    + intros Hnd. inversion Hnd; subst. split; assumption.
    + intros _. rewrite Z.eqb_refl. split; [reflexivity | eauto].
  - destruct (cancel_scan id m) as [[key' rest']|]; [|discriminate].
    intros [= <- <-]. destruct (IH key' rest' eq_refl) as (I1 & I2 & I3).
    split; [|split].
    + intros o [H|H]; [left; exact H | right; apply I1; exact H].
    + intros Hnd. inversion Hnd as [|x l Hx Hl]; subst.
      destruct (I2 Hl) as [N1 N2]. split.
      * change (NoDup (id_ v :: origins rest')). constructor; [|exact N1].
        intros X. apply Hx, I1, X.
      * intros [X|X]; [exact (E X) | exact (N2 X)].
    + intros [Hall Hwf]. destruct (I3 Hwf) as (-> & e & Hf & He).
      assert (key' <> k) as Hne.
      { apply qmap_find_In in Hf. rewrite Forall_forall in Hall.
        specialize (Hall _ Hf). simpl in Hall. lia. }
      destruct (Z.eqb_spec key' k); [contradiction|].
      split; [reflexivity | eauto].
Qed.

Lemma mem_cons z t l : mem z (t :: l) = (z =? t) || mem z l.
Proof. reflexivity. Qed.

Lemma mem_filter_other z key l :
  z <> key -> mem z l = true ->
  mem z (filter (fun t => negb (t =? key)) l) = true.
Proof.
  intros Hne. unfold mem. rewrite !existsb_exists.
  intros (x & Hin & Hx). apply Z.eqb_eq in Hx. subst x.
  exists z. split; [|apply Z.eqb_refl].
  apply filter_In. split; [exact Hin|].
  apply negb_true_iff, Z.eqb_neq. exact Hne.
Qed.

Lemma int_succ_small n : -2147483648 <= n < INT_MAX -> int_succ n = n + 1.
Proof.
  unfold int_succ, wrap_int, INT_MAX. intros H.
  rewrite Z.mod_small by lia. lia.
Qed.

(** What an event does to the delayed searches, the timers and the id
    counter, and which backend dispatch it makes. *)
Lemma step_scheduler d ev s :
  let res := step d ev s in
  let s' := state_of res in
  (exists id q m tid,
      (ev = slot_DoSearchAsync id q m tid
       /\ searches_next_id_ s' = searches_next_id_ s
       \/ ev = call_SearchAsync q m tid /\ id = searches_next_id_ s
          /\ searches_next_id_ s' = int_succ (searches_next_id_ s))
      /\ delayed_searches_ s'
         = qmap_insert tid (mkDelayedSearch id q m) (delayed_searches_ s)
      /\ timers_ s' = tid :: timers_ s
      /\ dispatches (effects_of res) = [])
  \/ (exists id key rest,
         ev = call_CancelSearch id
         /\ cancel_scan id (delayed_searches_ s) = Some (key, rest)
         /\ searches_next_id_ s' = searches_next_id_ s
         /\ delayed_searches_ s' = rest
         /\ timers_ s' = filter (fun t => negb (t =? key)) (timers_ s)
         /\ dispatches (effects_of res) = [])
  \/ (exists tid sid it,
         ev = qt_timerEvent tid sid
         /\ qmap_find tid (delayed_searches_ s) = Some it
         /\ searches_next_id_ s' = searches_next_id_ s
         /\ delayed_searches_ s' = qmap_erase tid (delayed_searches_ s)
         /\ timers_ s' = timers_ s
         /\ effects_of res
            = [backend_Search (id_ it) (query_ it) (searchby_ it) sid])
  \/ (searches_next_id_ s' = searches_next_id_ s
      /\ delayed_searches_ s' = delayed_searches_ s
      /\ timers_ s' = timers_ s
      /\ dispatches (effects_of res) = []).
Proof.
  cbv zeta. destruct ev as [q m t | i q m t | i | t sid | sid sgs | i e | r l | l im];
    unfold step.
  - left. exists (searches_next_id_ s), q, m, t.
    cbv beta iota zeta delta [bind ret]. rewrite SearchAsync_run.
    split; [right; repeat split|]. repeat split.
  - left. exists i, q, m, t. rewrite DoSearchAsync_run.
    split; [left; repeat split|]. repeat split.
  - rewrite CancelSearch_run.
    destruct (cancel_scan i (delayed_searches_ s)) as [[key rest]|] eqn:C.
    + right; left. exists i, key, rest. repeat split; exact C.
    + right; right; right. repeat split.
  - rewrite timerEvent_run.
    destruct (qmap_find t (delayed_searches_ s)) as [it|] eqn:F.
    + right; right; left. exists t, sid, it. repeat split; exact F.
    + right; right; right. repeat split.
  - right; right; right.
    destruct (step_dispatcher d (service_SearchResults sid sgs) s)
      as [(? & ? & ? & [=] & _)
         |[(sid0 & songs0 & _ & _ & Hd)
          |(Hev & _)]]; [|exfalso; eapply Hev; reflexivity].
    unfold step in Hd. rewrite Hd.
    pose proof (SearchDone_run d sid sgs s) as R. cbv zeta in R. rewrite R.
    repeat split.
  - right; right; right. repeat split.
  - right; right; right. cbv beta iota zeta delta [bind ret].
    rewrite LoadArtAsync_run. repeat split.
  - right; right; right.
    destruct (qmap_find l (cover_loader_tasks_ s)) as [id|] eqn:F.
    + rewrite (AlbumArtLoaded_known _ _ _ _ F), HandleLoadedArt_run.
      repeat split.
    + rewrite (AlbumArtLoaded_unknown _ _ _ F). repeat split.
Qed.

Lemma scheduler_inv_run d evs : scheduler_inv (now (run d evs)).
Proof.
  induction evs as [|ev evs IH] using rev_ind.
  - split; [exact I|]. intros k e H. discriminate.
  - rewrite run_snoc. set (r := run d evs) in *. unfold run_step. simpl now.
    destruct IH as [Hwf Hact]. unfold scheduler_inv.
    destruct (step_scheduler d ev (now r))
      as [(id & q & m & tid & _ & -> & -> & _)
         |[(id & key & rest & _ & Hc & _ & -> & -> & _)
          |[(tid & sid & it & _ & Hf & _ & -> & -> & _)
           |(_ & -> & -> & _)]]].
    + split; [apply qmap_insert_wf; exact Hwf|]. intros k e H.
      rewrite mem_cons. destruct (Z.eqb_spec k tid) as [->|Hne]; [reflexivity|].
      rewrite qmap_find_insert_other in H by exact Hne.
      simpl. exact (Hact k e H).
    + destruct (cancel_scan_some _ _ _ _ Hc) as (_ & _ & Herase).
      destruct (Herase Hwf) as (-> & _).
      split; [apply qmap_erase_wf; exact Hwf|]. intros k e H.
      destruct (Z.eq_dec k key) as [->|Hne].
      * rewrite qmap_find_erase_same in H by exact Hwf. discriminate.
      * rewrite qmap_find_erase_other in H by exact Hne.
        apply mem_filter_other; [exact Hne | exact (Hact k e H)].
    + split; [apply qmap_erase_wf; exact Hwf|]. intros k e H.
      destruct (Z.eq_dec k tid) as [->|Hne].
      * rewrite qmap_find_erase_same in H by exact Hwf. discriminate.
      * rewrite qmap_find_erase_other in H by exact Hne. exact (Hact k e H).
    + split; assumption.
Qed.

Lemma transcript_length d evs :
  List.length (transcript (run d evs)) = List.length evs.
Proof.
  induction evs as [|ev evs IH] using rev_ind; [reflexivity|].
  rewrite run_snoc. unfold run_step. simpl transcript.
  rewrite !length_app, IH. reflexivity.
Qed.

Lemma dispatched_origins_snoc tr ev effs :
  dispatched_origins (tr ++ [(ev, effs)])
  = dispatched_origins tr ++ map fst (dispatches effs).
Proof.
  unfold dispatched_origins. rewrite flat_map_app, map_app.
  cbv beta iota delta [flat_map snd]. rewrite app_nil_r. reflexivity.
Qed.

Lemma run_step_now d r ev :
  now (run_step d r ev) = state_of (step d ev (now r)).
Proof. reflexivity. Qed.

Lemma run_step_transcript d r ev :
  transcript (run_step d r ev)
  = transcript r ++ [(ev, effects_of (step d ev (now r)))].
Proof. reflexivity. Qed.

Lemma origins_inv_run d evs :
  forallb public_event evs = true ->
  Z.of_nat (List.length evs) < INT_MAX ->
  origins_inv (run d evs).
Proof.
  induction evs as [|ev evs IH] using rev_ind.
  - intros _ _. unfold origins_inv. simpl.
    split; [lia|]. split; [constructor|]. split; intros o [].
  - rewrite forallb_app, andb_true_iff, length_app. simpl.
    intros [Hpub Hev] Hlen. apply andb_true_iff in Hev. destruct Hev as [Hev _].
    destruct (IH Hpub ltac:(lia)) as (Ha & Hnd & Hc & Hd).
    pose proof (transcript_length d evs) as Htl.
    rewrite run_snoc. set (r := run d evs) in *.
    unfold origins_inv.
    rewrite run_step_now, run_step_transcript, dispatched_origins_snoc,
      length_app.
    simpl List.length.
    destruct (step_scheduler d ev (now r))
      as [(id & q & m & tid & Hkind & -> & _ & ->)
         |[(id & key & rest & _ & Hcs & -> & -> & _ & ->)
          |[(tid & sid & it & _ & Hf & -> & -> & _ & ->)
           |(-> & -> & _ & ->)]]].
    + destruct Hkind as [[-> _]|(-> & -> & ->)]; [discriminate|].
      rewrite int_succ_small by (unfold INT_MAX in *; lia).
      simpl map. rewrite app_nil_r.
      split; [lia|]. split.
      * apply origins_insert_NoDup; [exact Hnd|]. simpl id_.
        intros X. apply Hc in X. lia.
      * split.
        -- intros o X. apply origins_insert_In in X. simpl id_ in X.
           destruct X as [->|X]; [lia | apply Hc in X; lia].
        -- intros o X. destruct (Hd o X) as [D1 D2]. split; [lia|].
           intros Y. apply origins_insert_In in Y. simpl id_ in Y.
           destruct Y as [->|Y]; [lia | exact (D2 Y)].
    + destruct (cancel_scan_some _ _ _ _ Hcs) as (Hsub & Hnd' & _).
      simpl map. rewrite app_nil_r.
      split; [lia|]. split; [exact (proj1 (Hnd' Hnd))|]. split.
      * intros o X. apply Hc, Hsub, X.
      * intros o X. destruct (Hd o X) as [D1 D2]. split; [exact D1|].
        intros Y. apply D2, Hsub, Y.
    + simpl dispatches. simpl map.
      split; [lia|]. split; [apply origins_erase_NoDup; exact Hnd|]. split.
      * intros o X. apply Hc. eapply origins_erase_In. exact X.
      * intros o X. apply in_app_or in X. destruct X as [X|[<-|[]]].
        -- destruct (Hd o X) as [D1 D2]. split; [exact D1|].
           intros Y. apply D2. eapply origins_erase_In. exact Y.
        -- split; [apply Hc; eapply origins_find_In; exact Hf|].
           apply origins_erase_found; assumption.
    + simpl map. rewrite app_nil_r.
      split; [lia|]. split; [exact Hnd|]. split; [exact Hc | exact Hd].
Qed.

Lemma CancelSearch_no_timer id s :
  ~ In id (origins (delayed_searches_ s)) -> CancelSearch id s = (tt, s, []).
Proof.
  intros H. rewrite CancelSearch_run.
  rewrite (proj2 (cancel_scan_none id _) H). reflexivity.
Qed.

(** After [CancelSearch(o)] for an origin with a delayed search, through
    any further events of the public interface, [o] is never dispatched
    and gets no delayed search again. *)
Lemma cancelled_stays_cancelled d evs1 o evs2 :
  forallb public_event (evs1 ++ call_CancelSearch o :: evs2) = true ->
  Z.of_nat (List.length (evs1 ++ call_CancelSearch o :: evs2)) < INT_MAX ->
  In o (origins (delayed_searches_ (now (run d evs1)))) ->
  let r := run d (evs1 ++ call_CancelSearch o :: evs2) in
  ~ In o (dispatched_origins (transcript r))
  /\ ~ In o (origins (delayed_searches_ (now r)))
  /\ o < searches_next_id_ (now r).
Proof.
  induction evs2 as [|ev evs2 IH] using rev_ind.
  - rewrite forallb_app, andb_true_iff, length_app. simpl List.length.
    intros [Hpub _] Hlen Hin.
    destruct (origins_inv_run d evs1 Hpub ltac:(lia)) as (Ha & Hnd & Hc & Hd).
    cbv zeta. rewrite run_snoc. set (r := run d evs1) in *.
    rewrite run_step_now, run_step_transcript, dispatched_origins_snoc.
    destruct (step_scheduler d (call_CancelSearch o) (now r))
      as [(id & q & m & tid & [[[=] _]|([=] & _)] & _)
         |[(id & key & rest & [= <-] & Hcs & -> & -> & _ & ->)
          |[(tid & sid & it & [=] & _)
           |(_ & Hsame & _)]]].
    + destruct (cancel_scan_some _ _ _ _ Hcs) as (_ & Hnd' & _).
      simpl map. rewrite app_nil_r. split; [|split].
      * intros X. exact (proj2 (Hd o X) Hin).
      * exact (proj2 (Hnd' Hnd)).
      * exact (Hc o Hin).
    + exfalso. unfold step in Hsame. rewrite CancelSearch_run in Hsame.
      destruct (cancel_scan o (delayed_searches_ (now r))) as [[key rest]|] eqn:Hcs.
      * destruct (cancel_scan_some _ _ _ _ Hcs) as (_ & Hnd' & _).
        unfold state_of in Hsame. simpl in Hsame.
        apply (proj2 (Hnd' Hnd)). rewrite Hsame. exact Hin.
      * apply cancel_scan_none in Hcs. exact (Hcs Hin).
  - replace (evs1 ++ call_CancelSearch o :: evs2 ++ [ev])
      with ((evs1 ++ call_CancelSearch o :: evs2) ++ [ev])
      by (rewrite <- app_assoc; reflexivity).
    set (evs := evs1 ++ call_CancelSearch o :: evs2) in *.
    rewrite forallb_app, andb_true_iff, length_app. simpl List.length.
    intros [Hpub Hev] Hlen Hin. simpl in Hev.
    apply andb_true_iff in Hev. destruct Hev as [Hev _].
    destruct (IH Hpub ltac:(lia) Hin) as (K1 & K2 & K3).
    destruct (origins_inv_run d evs Hpub ltac:(lia)) as (Ha & Hnd & Hc & Hd).
    pose proof (transcript_length d evs) as Htl.
    cbv zeta. rewrite run_snoc. set (r := run d evs) in *.
    rewrite run_step_now, run_step_transcript, dispatched_origins_snoc.
    destruct (step_scheduler d ev (now r))
      as [(id & q & m & tid & Hkind & -> & _ & ->)
         |[(id & key & rest & _ & Hcs & -> & -> & _ & ->)
          |[(tid & sid & it & _ & Hf & -> & -> & _ & ->)
           |(-> & -> & _ & ->)]]].
    + destruct Hkind as [[-> _]|(-> & -> & ->)]; [discriminate|].
      rewrite int_succ_small by (unfold INT_MAX in *; lia).
      simpl map. rewrite app_nil_r. split; [exact K1|]. split; [|lia].
      intros Y. apply origins_insert_In in Y. simpl id_ in Y.
      destruct Y as [Y|Y]; [lia | exact (K2 Y)].
    + destruct (cancel_scan_some _ _ _ _ Hcs) as (Hsub & _ & _).
      simpl map. rewrite app_nil_r. split; [exact K1|]. split; [|exact K3].
      intros Y. apply K2, Hsub, Y.
    + simpl dispatches. simpl map. split; [|split; [|exact K3]].
      * intros X. apply in_app_or in X. destruct X as [X|[X|[]]]; [exact (K1 X)|].
        apply K2. rewrite <- X. eapply origins_find_In. exact Hf.
      * intros Y. apply K2. eapply origins_erase_In. exact Y.
    + simpl map. rewrite app_nil_r. split; [exact K1|]. split; assumption.
Qed.

(** C4, as amended: for searches started through
    [SearchAsync(query, searchby)], that is in a run through the public
    interface (of fewer than INT_MAX events), once [CancelSearch(o)] is
    called while the delayed search of origin [o] is waiting for its timer,
    no backend dispatch is made under [o], whatever follows; and
    [CancelSearch] for an id without a delayed search changes nothing and
    does nothing, in any state. *)
Theorem cancel_before_timer_prevents_dispatch :
  forall (d : Z) (evs1 : list Event) (o : Z) (evs2 : list Event)
         (s : TidalSearch) (id : Z),
    forallb public_event (evs1 ++ call_CancelSearch o :: evs2) = true ->
    Z.of_nat (List.length (evs1 ++ call_CancelSearch o :: evs2)) < INT_MAX ->
    In o (origins (delayed_searches_ (now (run d evs1)))) ->
    ~ In id (origins (delayed_searches_ s)) ->
    ~ In o (dispatched_origins
              (transcript (run d (evs1 ++ call_CancelSearch o :: evs2))))
    /\ CancelSearch id s = (tt, s, []).
Proof.
  intros d evs1 o evs2 s id Hpub Hlen Hin Hid. split.
  - exact (proj1 (cancelled_stays_cancelled d evs1 o evs2 Hpub Hlen Hin)).
  - apply CancelSearch_no_timer. exact Hid.
Qed.

Lemma cancel_before_timer_prevents_dispatch_witness :
  let evs1 := [call_SearchAsync "daft"%string 0 10] in
  let evs2 := [qt_timerEvent 10 100; call_SearchAsync "daft punk"%string 0 10;
               qt_timerEvent 10 101] in
  origins (delayed_searches_ (now (run (-1) evs1))) = [1]
  /\ dispatched_origins
       (transcript (run (-1) (evs1 ++ call_CancelSearch 1 :: evs2))) = [2]
  /\ ~ In 1 (dispatched_origins
               (transcript (run (-1) (evs1 ++ call_CancelSearch 1 :: evs2))))
  /\ CancelSearch 5 constructed = (tt, constructed, []).
Proof.
  intros evs1 evs2.
  assert (~ In 5 (origins (delayed_searches_ constructed))) as H5
      by (intros []).
  pose proof (cancel_before_timer_prevents_dispatch (-1) evs1 1 evs2
                constructed 5 eq_refl eq_refl (or_introl eq_refl) H5) as H.
  split; [reflexivity|]. split; [reflexivity|]. exact H.
Defined.



(* ================================================================== *)
(** * Further properties *)

(** ** Matches *)

Lemma prefix_iff t s :
  String.prefix t s = true <-> exists b, s = String.append t b.
Proof.
  revert s. induction t as [|x t IH]; intros s.
  - split; [intros _; exists s; reflexivity | destruct s; reflexivity].
  - destruct s as [|y s]; simpl;
      [split; [discriminate | intros [b H]; discriminate]|].
    destruct (ascii_dec x y) as [->|Hne].
    + rewrite IH. split; intros [b H]; exists b; [rewrite H; reflexivity|].
      injection H as H. exact H.
    + split; [discriminate|]. intros [b H]. injection H as H1 H2.
      exfalso. apply Hne. symmetry. exact H1.
Qed.

Lemma contains_at_iff s t : QString_contains_at s t = true <-> occurs_in t s.
Proof.
  unfold occurs_in. induction s as [|c s IH].
  - cbn [QString_contains_at]. rewrite orb_false_r, prefix_iff. split.
    + intros [b H]. exists EmptyString, b. exact H.
    + intros (a & b & H). destruct a; [exists b; exact H | discriminate].
  - cbn [QString_contains_at]. rewrite orb_true_iff, prefix_iff, IH. split.
    + intros [[b H]|(a & b & H)].
      * exists EmptyString, b. exact H.
      * exists (String c a), b. simpl. rewrite H. reflexivity.
    + intros (a & b & H). destruct a as [|x a].
      * left. exists b. exact H.
      * right. injection H as _ H. exists a, b. exact H.
Qed.

Lemma lower_append a b :
  lower (String.append a b) = String.append (lower a) (lower b).
Proof. induction a as [|x a IH]; simpl; [|rewrite IH]; reflexivity. Qed.

Lemma occurs_in_lower t s : occurs_in t s -> occurs_in (lower t) (lower s).
Proof.
  intros (a & b & ->). exists (lower a), (lower b).
  rewrite !lower_append. reflexivity.
Qed.

Lemma occurs_in_trans t u s : occurs_in t u -> occurs_in u s -> occurs_in t s.
Proof.
  intros (a & b & ->) (a' & b' & ->).
  exists (String.append a' a), (String.append b b').
  rewrite !append_assoc. reflexivity.
Qed.

Lemma occurs_in_refl s : occurs_in s s.
Proof. exists EmptyString, EmptyString. simpl. rewrite append_empty. reflexivity. Qed.

(** X1: [Matches] holds exactly when every token occurs, after case
    folding, somewhere in the case-folded string. *)
Theorem Matches_iff_every_token_occurs :
  forall (tokens : list QString) (str : QString),
    Matches tokens str = true
    <-> forall tok, In tok tokens -> occurs_in (lower tok) (lower str).
Proof.
  intros tokens str. unfold Matches, QString_contains_ci.
  rewrite forallb_forall. split; intros H tok Hin.
  - apply contains_at_iff, H, Hin.
  - apply contains_at_iff, H, Hin.
Qed.

Lemma Matches_of_occurs tokens str :
  (forall tok, In tok tokens -> occurs_in tok str) -> Matches tokens str = true.
Proof.
  intros H. unfold Matches, QString_contains_ci. apply forallb_forall.
  intros tok Hin. apply contains_at_iff, occurs_in_lower, H, Hin.
Qed.

Lemma split_go_all_space s :
  QString_all isSpace s = true ->
  forall in_run,
    Forall (fun piece => piece = EmptyString) (split_go s EmptyString in_run).
Proof.
  induction s as [|c s IH]; simpl; intros H in_run.
  - constructor; [reflexivity | constructor].
  - apply andb_true_iff in H. destruct H as [-> H].
    destruct in_run; [apply IH; exact H|].
    constructor; [reflexivity | apply IH; exact H].
Qed.

(** X2: a query that is empty or made of whitespace only matches every
    string: all its tokens are empty. *)
Theorem whitespace_query_matches_everything :
  forall (query str : QString),
    QString_all isSpace query = true ->
    Forall (fun tok => tok = EmptyString) (TokenizeQuery query)
    /\ Matches (TokenizeQuery query) str = true.
Proof.
  intros query str H.
  assert (Forall (fun tok => tok = EmptyString) (TokenizeQuery query)) as Hall.
  { unfold TokenizeQuery, QString_split_whitespace. apply Forall_map.
    eapply Forall_impl; [|apply split_go_all_space; exact H].
    simpl. intros piece ->. reflexivity. }
  split; [exact Hall|].
  apply Matches_of_occurs. intros tok Hin.
  rewrite Forall_forall in Hall. rewrite (Hall tok Hin).
  exists EmptyString, str. reflexivity.
Qed.

Lemma whitespace_query_matches_everything_witness :
  TokenizeQuery "  "%string = [EmptyString; EmptyString]
  /\ Matches (TokenizeQuery "  "%string) "Daft Punk"%string = true.
Proof.
  pose proof (whitespace_query_matches_everything
                "  "%string "Daft Punk"%string eq_refl) as H.
  split; [reflexivity | exact (proj2 H)].
Defined.

Lemma remove_char_absent c s :
  QString_all (fun a => negb (Ascii.eqb a c)) s = true ->
  QString_remove_char c s = s.
Proof.
  induction s as [|x s IH]; simpl; [reflexivity|].
  intros H. apply andb_true_iff in H. destruct H as [Hx Hs].
  apply negb_true_iff in Hx. rewrite Hx, (IH Hs). reflexivity.
Qed.

Lemma QString_all_impl (p q : ascii -> bool) s :
  (forall a, p a = true -> q a = true) ->
  QString_all p s = true -> QString_all q s = true.
Proof.
  intros Hpq. induction s as [|x s IH]; simpl; [reflexivity|].
  intros H. apply andb_true_iff in H. destruct H as [Hx Hs].
  rewrite (Hpq _ Hx), (IH Hs). reflexivity.
Qed.

Lemma strip_plain s :
  QString_all not_bracket_or_quote s = true -> strip s = s.
Proof.
  intros H. unfold strip.
  rewrite (remove_char_absent lparen s), (remove_char_absent rparen s).
  - apply remove_char_absent. revert H. apply QString_all_impl.
    unfold not_bracket_or_quote. intros a Ha.
    apply andb_true_iff in Ha. exact (proj2 Ha).
  - revert H. apply QString_all_impl. unfold not_bracket_or_quote. intros a Ha.
    apply andb_true_iff in Ha. destruct Ha as [Ha _].
    apply andb_true_iff in Ha. exact (proj2 Ha).
  - revert H. apply QString_all_impl. unfold not_bracket_or_quote. intros a Ha.
    apply andb_true_iff in Ha. destruct Ha as [Ha _].
    apply andb_true_iff in Ha. exact (proj1 Ha).
Qed.

Lemma take_drop n s : String.append (QString_take n s) (QString_drop n s) = s.
Proof.
  revert s. induction n as [|n IH]; intros [|x s]; simpl; try reflexivity.
  rewrite IH. reflexivity.
Qed.

Lemma occurs_in_drop n s : occurs_in (QString_drop n s) s.
Proof.
  exists (QString_take n s), EmptyString.
  rewrite append_empty, take_drop. reflexivity.
Qed.

Lemma occurs_in_empty s : occurs_in EmptyString s.
Proof. exists EmptyString, s. reflexivity. Qed.

Lemma occurs_in_remove_front len s : occurs_in (QString_remove 0 len s) s.
Proof.
  unfold QString_remove. change (0 <? 0) with false. cbv iota.
  destruct (orb _ _); [apply occurs_in_refl|].
  destruct (_ <=? len); [apply occurs_in_empty|].
  destruct (0 <? len); [|apply occurs_in_refl].
  change (Z.to_nat 0) with 0%nat. cbn [QString_take String.append].
  apply occurs_in_drop.
Qed.

Lemma occurs_in_clean_token piece :
  QString_all not_bracket_or_quote piece = true ->
  occurs_in (clean_token piece) piece.
Proof.
  intros H. unfold clean_token. fold (strip piece). rewrite (strip_plain _ H).
  destruct (negb _); [apply occurs_in_remove_front | apply occurs_in_refl].
Qed.

Lemma split_go_pieces s :
  forall cur in_run piece,
    In piece (split_go s cur in_run) ->
    occurs_in piece (String.append (QString_rev_onto cur EmptyString) s).
Proof.
  induction s as [|c s IH]; intros cur in_run piece; simpl.
  - intros [<-|[]]. rewrite append_empty. apply occurs_in_refl.
  - assert (occurs_in s (String.append (QString_rev_onto cur EmptyString)
                                       (String c s))) as Htail.
    { exists (String.append (QString_rev_onto cur EmptyString)
                            (String c EmptyString)), EmptyString.
      rewrite append_empty, append_assoc. reflexivity. }
    destruct (isSpace c).
    + destruct in_run.
      * intros Hin. eapply occurs_in_trans; [|exact Htail].
        exact (IH EmptyString true piece Hin).
      * intros [<-|Hin].
        -- exists EmptyString, (String c s). reflexivity.
        -- eapply occurs_in_trans; [|exact Htail].
           exact (IH EmptyString true piece Hin).
    + intros Hin. specialize (IH (String c cur) false piece Hin).
      simpl in IH. rewrite (rev_onto_append cur), append_assoc in IH.
      exact IH.
Qed.

Lemma split_go_pieces_all p s :
  QString_all p s = true ->
  forall cur in_run,
    QString_all p cur = true ->
    Forall (fun piece => QString_all p piece = true) (split_go s cur in_run).
Proof.
  induction s as [|c s IH]; intros H cur in_run Hcur; simpl.
  - constructor; [apply rev_onto_all; auto | constructor].
  - simpl in H. apply andb_true_iff in H. destruct H as [Hc Hs].
    destruct (isSpace c).
    + destruct in_run; [apply IH; auto|].
      constructor; [apply rev_onto_all; auto | apply IH; auto].
    + apply IH; [exact Hs|]. simpl. rewrite Hc. exact Hcur.
Qed.

(** X3: a query without the characters ( ) and the double quote matches
    itself: each of its tokens occurs in it. *)
Theorem plain_query_matches_itself :
  forall query : QString,
    QString_all not_bracket_or_quote query = true ->
    (forall tok, In tok (TokenizeQuery query) -> occurs_in tok query)
    /\ Matches (TokenizeQuery query) query = true.
Proof.
  intros query H.
  assert (forall tok, In tok (TokenizeQuery query) -> occurs_in tok query) as Hocc.
  { intros tok Hin. unfold TokenizeQuery, QString_split_whitespace in Hin.
    apply in_map_iff in Hin. destruct Hin as (piece & <- & Hin).
    pose proof (split_go_pieces_all _ _ H EmptyString false eq_refl) as Hall.
    rewrite Forall_forall in Hall.
    eapply occurs_in_trans; [apply occurs_in_clean_token, Hall, Hin|].
    exact (split_go_pieces _ _ _ _ Hin). }
  split; [exact Hocc | apply Matches_of_occurs; exact Hocc].
Qed.

Lemma plain_query_matches_itself_witness :
  TokenizeQuery " artist:Daft  Punk"%string
  = [EmptyString; "Daft"%string; "Punk"%string]
  /\ Matches (TokenizeQuery " artist:Daft  Punk"%string)
             " artist:Daft  Punk"%string = true.
Proof.
  pose proof (plain_query_matches_itself " artist:Daft  Punk"%string eq_refl)
    as H.
  split; [reflexivity | exact (proj2 H)].
Defined.

(** ** The event loop, member by member *)

Lemma step_state d ev s : state_of (step d ev s) = after_event ev s.
Proof.
  destruct ev as [q m t | i q m t | i | t sid | sid sgs | i e | r l | l im];
    unfold step, after_event.
  - reflexivity.
  - reflexivity.
  - rewrite CancelSearch_run.
    destruct (cancel_scan i (delayed_searches_ s)) as [[key rest]|]; reflexivity.
  - rewrite timerEvent_run.
    destruct (qmap_find t (delayed_searches_ s)); reflexivity.
  - pose proof (SearchDone_run d sid sgs s) as R. cbv zeta in R. rewrite R.
    reflexivity.
  - reflexivity.
  - reflexivity.
  - destruct (qmap_find l (cover_loader_tasks_ s)) as [id|] eqn:F.
    + rewrite (AlbumArtLoaded_known _ _ _ _ F), HandleLoadedArt_run.
      reflexivity.
    + rewrite (AlbumArtLoaded_unknown _ _ _ F). reflexivity.
Qed.

Lemma run_now_snoc d evs ev :
  now (run d (evs ++ [ev])) = after_event ev (now (run d evs)).
Proof. rewrite run_snoc, run_step_now. apply step_state. Qed.

Lemma env_respected_snoc d evs ev :
  env_respected (run d (evs ++ [ev]))
  = env_respected (run d evs) && env_ok (now (run d evs)) ev.
Proof. rewrite run_snoc. reflexivity. Qed.

Lemma calls_snoc kind evs ev :
  calls kind (evs ++ [ev]) = calls kind evs + (if kind ev then 1 else 0).
Proof.
  unfold calls. rewrite filter_app, length_app. simpl.
  destruct (kind ev); simpl; lia.
Qed.

Lemma calls_bound kind evs : 0 <= calls kind evs <= Z.of_nat (List.length evs).
Proof.
  unfold calls. pose proof (filter_length_le kind evs). lia.
Qed.

Lemma next_ids_count d evs :
  Z.of_nat (List.length evs) < INT_MAX ->
  searches_next_id_ (now (run d evs)) = 1 + calls is_SearchAsync evs
  /\ art_searches_next_id_ (now (run d evs)) = 1 + calls is_LoadArtAsync evs.
Proof.
  induction evs as [|ev evs IH] using rev_ind; [intros _; split; reflexivity|].
  rewrite length_app. simpl List.length. intros Hlen.
  destruct (IH ltac:(lia)) as [IH1 IH2].
  pose proof (calls_bound is_SearchAsync evs) as B1.
  pose proof (calls_bound is_LoadArtAsync evs) as B2.
  rewrite run_now_snoc, !calls_snoc. set (s := now (run d evs)) in *.
  destruct ev as [q m t | i q m t | i | t sid | sid sgs | i e | r l | l im];
    unfold after_event; cbn [is_SearchAsync is_LoadArtAsync].
  - cbn [searches_next_id_ art_searches_next_id_].
    rewrite int_succ_small by (unfold INT_MAX in *; lia). lia.
  - cbn [searches_next_id_ art_searches_next_id_]. lia.
  - destruct (cancel_scan i (delayed_searches_ s)) as [[key rest]|];
      cbn [searches_next_id_ art_searches_next_id_]; lia.
  - destruct (qmap_find t (delayed_searches_ s));
      cbn [searches_next_id_ art_searches_next_id_]; lia.
  - cbn [searches_next_id_ art_searches_next_id_]. lia.
  - lia.
  - cbn [searches_next_id_ art_searches_next_id_].
    rewrite int_succ_small by (unfold INT_MAX in *; lia). lia.
  - destruct (qmap_find l (cover_loader_tasks_ s));
      cbn [searches_next_id_ art_searches_next_id_]; lia.
Qed.

(** X4: the id [SearchAsync] returns is one more than the number of
    [SearchAsync] calls made before, and the id [LoadArtAsync] returns is
    one more than the number of [LoadArtAsync] calls made before; the two
    counters start at 1 and do not depend on each other or on anything
    else that happened (as long as fewer than [INT_MAX] events have
    occurred). *)
Theorem returned_ids_count_earlier_calls :
  forall (d : Z) (evs : list Event) (q : QString) (m : SearchBy) (tid : Z)
         (result : Result) (lid : Z),
    Z.of_nat (List.length evs) < INT_MAX ->
    value_of (SearchAsync q m tid (now (run d evs)))
    = 1 + calls is_SearchAsync evs
    /\ value_of (LoadArtAsync result lid (now (run d evs)))
       = 1 + calls is_LoadArtAsync evs.
Proof.
  intros d evs q m tid result lid Hlen.
  rewrite SearchAsync_run, LoadArtAsync_run. unfold value_of. simpl fst.
  exact (next_ids_count d evs Hlen).
Qed.

Lemma returned_ids_count_earlier_calls_witness :
  let evs := [call_SearchAsync "a"%string 0 10; call_LoadArtAsync sample_result 40;
              call_SearchAsync "ab"%string 0 11; call_CancelSearch 1] in
  value_of (SearchAsync "abc"%string 0 12 (now (run (-1) evs))) = 3
  /\ value_of (LoadArtAsync sample_result 41 (now (run (-1) evs))) = 2.
Proof.
  intros evs.
  exact (returned_ids_count_earlier_calls (-1) evs "abc"%string 0 12
           sample_result 41 eq_refl).
Defined.

(** ** Timers and cancellation *)

Lemma NoDup_origins_same_item (m : QMap DelayedSearch) k1 e1 k2 e2 :
  NoDup (origins m) -> In (k1, e1) m -> In (k2, e2) m -> id_ e1 = id_ e2 ->
  k1 = k2.
Proof.
  induction m as [|[k v] m IH]; simpl; [intros _ []|].
  intros Hnd H1 H2 E. inversion Hnd as [|x l Hx Hl]; subst.
  assert (forall k' e', In (k', e') m -> In (id_ e') (origins m)) as Hin
      by (intros k' e' H; apply (in_map (fun kv => id_ (snd kv)) _ _ H)).
  destruct H1 as [[= -> ->]|H1], H2 as [[= -> ->]|H2].
  - reflexivity.
  - exfalso. apply Hx. simpl. rewrite E. exact (Hin _ _ H2).
  - exfalso. apply Hx. simpl. rewrite <- E. exact (Hin _ _ H1).
  - exact (IH Hl H1 H2 E).
Qed.

Lemma mem_filter_self key l :
  mem key (filter (fun t => negb (t =? key)) l) = false.
Proof.
  unfold mem. apply not_true_is_false. rewrite existsb_exists.
  intros (x & Hin & Hx). apply filter_In in Hin. destruct Hin as [_ Hne].
  apply Z.eqb_eq in Hx. subst x. rewrite Z.eqb_refl in Hne. discriminate.
Qed.

(** X6: in a run through the public interface, [CancelSearch(o)] for an
    origin whose delayed search waits under timer [k] kills exactly that
    timer and removes exactly that delayed search; the other delayed
    searches and the searches already dispatched are untouched, and a
    second [CancelSearch(o)] or a late event of timer [k] does nothing. *)
Theorem cancel_removes_exactly_one :
  forall (d : Z) (evs : list Event) (o k : Z) (e : DelayedSearch),
    let s := now (run d evs) in
    let c := CancelSearch o s in
    forallb public_event evs = true ->
    Z.of_nat (List.length evs) < INT_MAX ->
    qmap_find k (delayed_searches_ s) = Some e ->
    id_ e = o ->
    effects_of c = [qt_killTimer k]
    /\ delayed_searches_ (state_of c) = qmap_erase k (delayed_searches_ s)
    /\ qmap_contains k (delayed_searches_ (state_of c)) = false
    /\ (forall k', k' <> k ->
          qmap_find k' (delayed_searches_ (state_of c))
          = qmap_find k' (delayed_searches_ s))
    /\ mem k (timers_ (state_of c)) = false
    /\ pending_searches_ (state_of c) = pending_searches_ s
    /\ CancelSearch o (state_of c) = (tt, state_of c, [])
    /\ (forall sid, timerEvent k sid (state_of c) = (tt, state_of c, [])).
Proof.
  intros d evs o k e s c Hpub Hlen Hf Ho. subst c.
  destruct (origins_inv_run d evs Hpub Hlen) as (_ & Hnd & _).
  destruct (scheduler_inv_run d evs) as [Hwf _]. fold s in Hnd, Hwf.
  destruct (cancel_scan o (delayed_searches_ s)) as [[key rest]|] eqn:Hcs.
  2:{ apply cancel_scan_none in Hcs. exfalso. apply Hcs. rewrite <- Ho.
      eapply origins_find_In. exact Hf. }
  destruct (cancel_scan_some _ _ _ _ Hcs) as (_ & Hnd' & Herase).
  destruct (Herase Hwf) as (-> & e' & Hf' & He').
  assert (key = k) as ->.
  { apply (NoDup_origins_same_item _ key e' k e Hnd);
      [apply qmap_find_In; exact Hf' | apply qmap_find_In; exact Hf
      | congruence]. }
  rewrite CancelSearch_run, Hcs.
  cbv beta iota zeta delta [state_of effects_of fst snd].
  cbn [delayed_searches_ pending_searches_ timers_].
  split; [reflexivity|]. split; [reflexivity|].
  split; [apply qmap_contains_false, qmap_find_erase_same; exact Hwf|].
  split; [intros k' Hne; apply qmap_find_erase_other; exact Hne|].
  split; [apply mem_filter_self|]. split; [reflexivity|]. split.
  - apply CancelSearch_no_timer. cbn [delayed_searches_].
    exact (proj2 (Hnd' Hnd)).
  - intros sid. rewrite timerEvent_run. cbn [delayed_searches_].
    rewrite qmap_find_erase_same by exact Hwf. reflexivity.
Qed.

Lemma cancel_removes_exactly_one_witness :
  let s := now (run (-1) [call_SearchAsync "daft"%string 0 10;
                          call_SearchAsync "punk"%string 0 11]) in
  effects_of (CancelSearch 1 s) = [qt_killTimer 10]
  /\ delayed_searches_ (state_of (CancelSearch 1 s))
     = [(11, mkDelayedSearch 2 "punk"%string 0)].
Proof.
  intros s.
  pose proof (cancel_removes_exactly_one (-1)
                [call_SearchAsync "daft"%string 0 10;
                 call_SearchAsync "punk"%string 0 11]
                1 10 (mkDelayedSearch 1 "daft"%string 0)
                eq_refl eq_refl eq_refl eq_refl) as H.
  cbv zeta in H. destruct H as (H1 & H2 & _).
  split; [exact H1 | subst s; rewrite H2; reflexivity].
Defined.

(** X7: in a run through the public interface, [CancelSearch(o)] for an
    origin that has been dispatched to the backend does nothing: the
    search in flight is not cancelled and stays pending. *)
Theorem cancel_after_dispatch_does_nothing :
  forall (d : Z) (evs : list Event) (o : Z),
    forallb public_event evs = true ->
    Z.of_nat (List.length evs) < INT_MAX ->
    In o (dispatched_origins (transcript (run d evs))) ->
    CancelSearch o (now (run d evs)) = (tt, now (run d evs), []).
Proof.
  intros d evs o Hpub Hlen Hin.
  destruct (origins_inv_run d evs Hpub Hlen) as (_ & _ & _ & Hd).
  apply CancelSearch_no_timer. exact (proj2 (Hd o Hin)).
Qed.

Lemma cancel_after_dispatch_does_nothing_witness :
  let evs := [call_SearchAsync "daft"%string 0 10; qt_timerEvent 10 100] in
  CancelSearch 1 (now (run (-1) evs)) = (tt, now (run (-1) evs), [])
  /\ qmap_contains 100 (pending_searches_ (now (run (-1) evs))) = true.
Proof.
  intros evs. split; [|reflexivity].
  exact (cancel_after_dispatch_does_nothing (-1) evs 1 eq_refl eq_refl
           (or_introl eq_refl)).
Defined.

(** ** Pending searches *)

Lemma pending_after_event ev s sid st :
  env_ok s ev = true ->
  qmap_find sid (pending_searches_ s) = Some st ->
  (forall songs, ev <> service_SearchResults sid songs) ->
  qmap_find sid (pending_searches_ (after_event ev s)) = Some st.
Proof.
  intros Hok Hf Hev.
  destruct ev as [q m t | i q m t | i | t sid' | sid' sgs | i e | r l | l im];
    unfold after_event; try exact Hf.
  - destruct (cancel_scan i (delayed_searches_ s)) as [[key rest]|]; exact Hf.
  - destruct (qmap_find t (delayed_searches_ s)); [|exact Hf].
    cbn [pending_searches_]. simpl in Hok.
    apply negb_true_iff, qmap_contains_false in Hok.
    rewrite qmap_find_insert_other; [exact Hf | congruence].
  - cbn [pending_searches_]. rewrite qmap_find_erase_other; [exact Hf|].
    intros ->. exact (Hev sgs eq_refl).
  - destruct (qmap_find l (cover_loader_tasks_ s)); exact Hf.
Qed.

(** X8: the pending state of a dispatch leaves [pending_searches_] only
    through a success reply for its correlation id.  As long as none
    arrives, it stays, unchanged, whatever else happens, error replies
    for that id included. *)
Theorem pending_state_stays_until_success_reply :
  forall (d : Z) (evs1 evs2 : list Event) (sid : Z) (st : PendingState),
    env_respected (run d (evs1 ++ evs2)) = true ->
    qmap_find sid (pending_searches_ (now (run d evs1))) = Some st ->
    (forall songs, ~ In (service_SearchResults sid songs) evs2) ->
    qmap_find sid (pending_searches_ (now (run d (evs1 ++ evs2)))) = Some st.
Proof.
  intros d evs1 evs2 sid st. induction evs2 as [|ev evs2 IH] using rev_ind.
  - rewrite app_nil_r. intros _ Hf _. exact Hf.
  - rewrite app_assoc, env_respected_snoc, andb_true_iff, run_now_snoc.
    intros [Henv Hok] Hf Hno.
    apply pending_after_event; [exact Hok | |].
    + apply IH; [exact Henv | exact Hf|].
      intros songs Hin. apply (Hno songs), in_or_app. left; exact Hin.
    + intros songs ->. apply (Hno songs), in_or_app. right. left. reflexivity.
Qed.

Lemma pending_state_stays_until_success_reply_witness :
  let evs1 := [call_SearchAsync "daft"%string 0 10; qt_timerEvent 10 100] in
  let evs2 := [service_SearchError 100 "timeout"%string;
               call_CancelSearch 1; qt_timerEvent 10 101;
               service_SearchResults 7 []] in
  qmap_find 100 (pending_searches_ (now (run (-1) (evs1 ++ evs2))))
  = Some (mkPendingState 1 ["daft"%string]).
Proof.
  intros evs1 evs2.
  apply (pending_state_stays_until_success_reply (-1) evs1 evs2 100
           (mkPendingState 1 ["daft"%string]) eq_refl eq_refl).
  intros songs [H|[H|[H|[H|[]]]]]; discriminate.
Defined.

(** X9: when the backend never reuses a pending correlation id,
    [pending_searches_] is empty exactly when every dispatch made so far
    has been answered by a success reply. *)
Theorem pending_empty_iff_all_answered :
  forall (d : Z) (evs : list Event),
    env_respected (run d evs) = true ->
    (pending_searches_ (now (run d evs)) = []
     <-> outstanding (transcript (run d evs)) = []).
Proof.
  intros d evs Henv. destruct (dispatcher_inv_run d evs Henv) as [Hwf Htr].
  split; intros H.
  - destruct (outstanding (transcript (run d evs))) as [|[O sid] out] eqn:E;
      [reflexivity|].
    destruct (proj1 (Htr O sid) (or_introl eq_refl)) as (st & Hf & _).
    rewrite H in Hf. discriminate.
  - destruct (pending_searches_ (now (run d evs))) as [|[k st] m] eqn:E;
      [reflexivity|].
    assert (In (orig_id_ st, k) (outstanding (transcript (run d evs)))) as Hin.
    { apply Htr. exists st. split; [|reflexivity].
      simpl. rewrite Z.eqb_refl. reflexivity. }
    rewrite H in Hin. destruct Hin.
Qed.

Lemma pending_empty_iff_all_answered_witness :
  let evs := [call_SearchAsync "daft"%string 0 10; qt_timerEvent 10 100;
              service_SearchResults 100 [sample_song]] in
  pending_searches_ (now (run (-1) evs)) = []
  /\ outstanding (transcript (run (-1) evs)) = [].
Proof.
  intros evs.
  pose proof (pending_empty_iff_all_answered (-1) evs eq_refl) as H.
  split; [apply H |]; reflexivity.
Defined.

Lemma outstanding_dispatched tr p :
  In p (outstanding tr) -> In (fst p) (dispatched_origins tr).
Proof.
  induction tr as [|[ev effs] tr IH] using rev_ind; [intros []|].
  rewrite outstanding_snoc, dispatched_origins_snoc. unfold outstanding_step.
  cbn [fst snd]. intros H. apply in_app_or in H. apply in_or_app.
  destruct H as [H|H].
  - left. apply IH. apply filter_In in H. exact (proj1 H).
  - right. apply in_map. exact H.
Qed.

Lemma raw_results_keyed (songs : SongList) :
  let ret_ := map (fun song => mkResult song EmptyString) songs in
  map with_cache_key
    (if Z.of_nat (List.length ret_) >? kMaxResultsPerEmission
     then firstn (Z.to_nat kMaxResultsPerEmission) ret_ else ret_)
  = map (fun song => mkResult song (String.append "tidal:" (url song)))
        (firstn 1000 songs).
Proof.
  cbv zeta. unfold kMaxResultsPerEmission. change (Z.to_nat 1000) with 1000%nat.
  rewrite length_map.
  destruct (Z.gtb_spec (Z.of_nat (List.length songs)) 1000) as [Hgt|Hle].
  - rewrite firstn_map, map_map. reflexivity.
  - rewrite (firstn_all2 (n := 1000) songs) by lia.
    rewrite map_map. reflexivity.
Qed.

(** X10: the round trip of a search.  In a run through the public
    interface, with a backend that never reuses a pending correlation id:
    [SearchAsync] returns an id; when the timer it started fires, the
    query and mode go to the backend as they were given; and the success
    reply brings, under the id that [SearchAsync] returned and in this
    order, [ResultsAvailable] with the songs of the reply, [AddResults]
    with the first 1000 of them, each with its cache key (none for a reply
    without songs), and [SearchFinished].  Nothing of the search is left
    in [pending_searches_]. *)
Theorem search_round_trip :
  forall (d : Z) (evs : list Event) (q : QString) (m : SearchBy)
         (tid sid : Z) (songs : SongList),
    let s := now (run d evs) in
    let a := SearchAsync q m tid s in
    let id := value_of a in
    let b := timerEvent tid sid (state_of a) in
    let c := SearchDone d sid songs (state_of b) in
    forallb public_event evs = true ->
    Z.of_nat (List.length evs) < INT_MAX ->
    env_respected (run d evs) = true ->
    effects_of b = [backend_Search id q m sid]
    /\ effects_of c
       = emit_ResultsAvailable id (map (fun song => mkResult song EmptyString) songs)
         :: (if isEmpty songs then []
             else [emit_AddResults id
                     (map (fun song =>
                             mkResult song (String.append "tidal:" (url song)))
                          (firstn 1000 songs))])
         ++ [emit_SearchFinished id]
    /\ qmap_contains sid (pending_searches_ (state_of c)) = false.
Proof.
  intros d evs q m tid sid songs s a id b c Hpub Hlen Henv.
  destruct (origins_inv_run d evs Hpub Hlen) as (_ & _ & _ & Hd).
  destruct (dispatcher_inv_run d evs Henv) as [Hwf Htr].
  fold s in Hd, Hwf, Htr.
  assert (state_of a
          = mkTidalSearch (int_succ (searches_next_id_ s))
              (art_searches_next_id_ s)
              (qmap_insert tid (mkDelayedSearch (searches_next_id_ s) q m)
                           (delayed_searches_ s))
              (pending_searches_ s) (pending_art_searches_ s)
              (cover_loader_tasks_ s) (pixmap_cache_ s) (tid :: timers_ s)
          /\ id = searches_next_id_ s) as [Ha Hid]
      by (subst id a; rewrite SearchAsync_run; split; reflexivity).
  set (st := mkPendingState id (TokenizeQuery q)).
  assert (effects_of b = [backend_Search id q m sid]
          /\ pending_searches_ (state_of b)
             = qmap_insert sid st (pending_searches_ s)) as [Hb Hpb].
  { subst b. rewrite timerEvent_run, Ha. cbn [delayed_searches_].
    rewrite qmap_find_insert_same. subst st. rewrite Hid.
    split; reflexivity. }
  split; [exact Hb|].
  assert (qmap_wf (qmap_erase sid (qmap_insert sid st (pending_searches_ s))))
    as Hwf' by (apply qmap_erase_wf, qmap_insert_wf; exact Hwf).
  pose proof (SearchDone_run d sid songs (state_of b)) as R. cbv zeta in R.
  fold c in R. rewrite R. clear R.
  rewrite ResultsAvailableSlot_run, !Hpb. unfold qmap_take.
  rewrite qmap_find_insert_same.
  cbv beta iota delta [effects_of state_of fst snd].
  cbn [orig_id_ st pending_searches_ set_pending_searches].
  split.
  - assert (isEmpty (map (fun song => mkResult song EmptyString) songs)
            = isEmpty songs) as -> by (destruct songs; reflexivity).
    pose proof (raw_results_keyed songs) as K. cbv zeta in K. rewrite K.
    assert (isEmpty (qmap_keys_of PendingState_eqb (mkPendingState id [])
                       (qmap_erase sid (qmap_insert sid st (pending_searches_ s))))
            = true) as ->; [|reflexivity].
    apply keys_of_empty_iff. intros k st' Hin Horig.
    apply (qmap_In_find _ _ _ Hwf') in Hin.
    destruct (Z.eq_dec k sid) as [->|Hne].
    + rewrite qmap_find_erase_same in Hin by (apply qmap_insert_wf; exact Hwf).
      discriminate.
    + rewrite qmap_find_erase_other, qmap_find_insert_other in Hin by exact Hne.
      assert (In (orig_id_ st', k) (outstanding (transcript (run d evs)))) as Ho
          by (apply Htr; exists st'; split; [exact Hin | reflexivity]).
      apply outstanding_dispatched in Ho. cbn [fst] in Ho.
      destruct (Hd _ Ho) as [Hlt _]. lia.
  - apply qmap_contains_false, qmap_find_erase_same, qmap_insert_wf. exact Hwf.
Qed.

Lemma search_round_trip_witness :
  let s := now (run (-1) [call_SearchAsync "daft"%string 0 10;
                          qt_timerEvent 10 100]) in
  let a := SearchAsync "daft punk"%string 3 11 s in
  let b := timerEvent 11 101 (state_of a) in
  let c := SearchDone (-1) 101 [sample_song] (state_of b) in
  value_of a = 2
  /\ effects_of b = [backend_Search 2 "daft punk"%string 3 101]
  /\ effects_of c
     = [emit_ResultsAvailable 2 [mkResult sample_song EmptyString];
        emit_AddResults 2 [sample_result];
        emit_SearchFinished 2].
Proof.
  intros s a b c.
  pose proof (search_round_trip (-1)
                [call_SearchAsync "daft"%string 0 10; qt_timerEvent 10 100]
                "daft punk"%string 3 11 101 [sample_song]
                eq_refl eq_refl eq_refl) as H.
  cbv zeta in H. destruct H as (H1 & H2 & _).
  split; [reflexivity|]. split; [exact H1 | exact H2].
Defined.

(** ** Album art requests *)






(** ** Thumbnails *)

Lemma ScaleAndPad_size image :
  isNull image = false -> size (ScaleAndPad image) = (32, 32).
Proof.
  intros Hnull. unfold ScaleAndPad. rewrite Hnull.
  change (kArtHeight, kArtHeight) with ((32, 32) : QSize).
  destruct (QSize_eqb (size image) (32, 32)) eqn:E;
    [apply QSize_eqb_eq; exact E|].
  destruct (QSize_eqb (size (QImage_scaled image (32, 32))) (32, 32)) eqn:E';
    [apply QSize_eqb_eq; exact E' | reflexivity].
Qed.

(** X13: [ScaleAndPad] is idempotent: what it returns, it returns
    unchanged when applied again. *)
Theorem ScaleAndPad_idempotent :
  forall image : QImage, ScaleAndPad (ScaleAndPad image) = ScaleAndPad image.
Proof.
  intros image. destruct (isNull image) eqn:Hnull.
  - destruct image; try discriminate. reflexivity.
  - pose proof (ScaleAndPad_size image Hnull) as Hs.
    set (r := ScaleAndPad image) in *. unfold ScaleAndPad.
    assert (isNull r = false) as -> by (destruct r; [discriminate|..]; reflexivity).
    rewrite Hs. reflexivity.
Qed.

Lemma fit_in_box_landscape w h :
  0 < h -> h <= w -> fst (fit_in_box (w, h)) = 32.
Proof.
  intros Hh Hw. unfold fit_in_box, QSize_scaled_keep.
  destruct (Z.eqb_spec w 0); [lia|]. destruct (Z.eqb_spec h 0); [lia|].
  cbv beta iota zeta delta [orb fst snd].
  rewrite !Z.quot_div_nonneg by lia.
  pose proof (Z.mul_div_le (32 * w) h Hh) as Q1.
  pose proof (Z.mul_succ_div_gt (32 * w) h Hh) as Q2.
  set (q := 32 * w / h) in *.
  assert (32 <= q) by nia.
  destruct (Z.leb_spec q 32); cbv beta iota zeta delta [fst snd]; lia.
Qed.

Lemma fit_in_box_portrait w h :
  0 < w -> w <= h -> snd (fit_in_box (w, h)) = 32.
Proof.
  intros Hw Hh. unfold fit_in_box, QSize_scaled_keep.
  destruct (Z.eqb_spec w 0); [lia|]. destruct (Z.eqb_spec h 0); [lia|].
  cbv beta iota zeta delta [orb fst snd].
  rewrite !Z.quot_div_nonneg by lia.
  pose proof (Z.mul_div_le (32 * w) h ltac:(lia)) as Q1.
  set (q := 32 * w / h) in *.
  assert (q <= 32) by nia.
  destruct (Z.leb_spec q 32); cbv beta iota zeta delta [fst snd]; lia.
Qed.

Lemma QImage_scaled_eq image :
  isNull image = false ->
  QImage_scaled image (32, 32)
  = if QSize_eqb (fit_in_box (size image)) (size image) then image
    else Resampled (Z.to_pos (fst (fit_in_box (size image))))
                   (Z.to_pos (snd (fit_in_box (size image)))) image.
Proof. intros Hnull. unfold QImage_scaled. rewrite Hnull. reflexivity. Qed.

(** X14: bars go where the image is short.  For an image that is not null
    and not 32 x 32: if it is at least as wide as high, the scaled copy is
    32 wide and is drawn at x = 0, centered vertically (or is the result
    itself when it is 32 high too); if it is at least as high as wide, the
    copy is 32 high and is drawn at y = 0, centered horizontally (or is the
    result itself); a square image is resampled to 32 x 32 without any
    canvas. *)
Theorem ScaleAndPad_bars_on_short_side :
  forall image : QImage,
    let copy := QImage_scaled image (32, 32) in
    isNull image = false ->
    size image <> (32, 32) ->
    (height image <= width image ->
       width copy = 32
       /\ (ScaleAndPad image = copy
           \/ ScaleAndPad image
              = Painted 32 32 0 ((32 - height copy) ÷ 2) copy))
    /\ (width image <= height image ->
          height copy = 32
          /\ (ScaleAndPad image = copy
              \/ ScaleAndPad image
                 = Painted 32 32 ((32 - width copy) ÷ 2) 0 copy))
    /\ (width image = height image ->
          ScaleAndPad image = Resampled 32 32 image).
Proof.
  intros image copy Hnull Hsz.
  destruct (size_positive image Hnull) as [Hw Hh].
  pose proof (QImage_scaled_size image Hnull) as S.
  change (kArtHeight, kArtHeight) with ((32, 32) : QSize) in S. fold copy in S.
  assert (QSize_eqb (size image) (32, 32) = false) as Hne.
  { destruct (QSize_eqb (size image) (32, 32)) eqn:E; [|reflexivity].
    apply QSize_eqb_eq in E. contradiction. }
  assert (ScaleAndPad image
          = if QSize_eqb (size copy) (32, 32) then copy
            else Painted 32 32 ((32 - width copy) ÷ 2)
                               ((32 - height copy) ÷ 2) copy) as Hres.
  { unfold ScaleAndPad. rewrite Hnull.
    change (kArtHeight, kArtHeight) with ((32, 32) : QSize).
    rewrite Hne. reflexivity. }
  assert (width copy = fst (fit_in_box (size image))) as Hcw
      by (rewrite <- S; reflexivity).
  assert (height copy = snd (fit_in_box (size image))) as Hch
      by (rewrite <- S; reflexivity).
  split; [|split].
  - intros Hl. unfold size in Hcw.
    rewrite (fit_in_box_landscape _ _ Hh Hl) in Hcw.
    split; [exact Hcw|]. rewrite Hres.
    destruct (QSize_eqb (size copy) (32, 32)); [left; reflexivity|].
    right. rewrite Hcw. reflexivity.
  - intros Hp. unfold size in Hch.
    rewrite (fit_in_box_portrait _ _ Hw Hp) in Hch.
    split; [exact Hch|]. rewrite Hres.
    destruct (QSize_eqb (size copy) (32, 32)); [left; reflexivity|].
    right. rewrite Hch. reflexivity.
  - intros Heq. unfold size in Hcw, Hch.
    rewrite (fit_in_box_landscape (width image) (height image) Hh ltac:(lia))
      in Hcw.
    rewrite (fit_in_box_portrait (width image) (height image) Hw ltac:(lia))
      in Hch.
    assert (size copy = (32, 32)) as Hc
        by (unfold size; rewrite Hcw, Hch; reflexivity).
    assert (fit_in_box (size image) = (32, 32)) as Hfit
        by (rewrite <- S; exact Hc).
    rewrite Hres, Hc. change (QSize_eqb (32, 32) (32, 32)) with true.
    cbv iota. subst copy. rewrite (QImage_scaled_eq image Hnull), Hfit.
    destruct (QSize_eqb (32, 32) (size image)) eqn:E; [|reflexivity].
    apply QSize_eqb_eq in E. exfalso. apply Hsz. symmetry. exact E.
Qed.

Lemma ScaleAndPad_bars_on_short_side_witness :
  ScaleAndPad (Decoded 64 48 [])
  = Painted 32 32 0 4 (Resampled 32 24 (Decoded 64 48 []))
  /\ ScaleAndPad (Decoded 500 500 []) = Resampled 32 32 (Decoded 500 500 []).
Proof.
  pose proof (ScaleAndPad_bars_on_short_side (Decoded 500 500 [])
                eq_refl ltac:(discriminate)) as H.
  cbv zeta in H. destruct H as (_ & _ & H).
  split; [reflexivity | apply H; reflexivity].
Defined.

(** X16: songs in, songs out.  From a reply with songs, the slot emits
    results whose tracks, loaded with [LoadTracks], are the first 1000
    songs of the reply and their urls, in the order of the reply. *)
Theorem emitted_results_load_reply_songs :
  forall (id : Z) (songs : SongList) (s : TidalSearch),
    songs <> [] ->
    exists emitted,
      effects_of (ResultsAvailableSlot id
                    (collect (fun song => mkResult song EmptyString) songs) s)
      = [emit_AddResults id emitted]
      /\ LoadTracks emitted
         = Some (mkMimeData (firstn 1000 songs) (map url (firstn 1000 songs))).
Proof.
  intros id songs s Hne. rewrite collect_map, ResultsAvailableSlot_run.
  pose proof (raw_results_keyed songs) as K. cbv zeta in K. rewrite K.
  destruct songs as [|song songs]; [contradiction|].
  eexists. split; [reflexivity|].
  unfold LoadTracks. rewrite !collect_map, !map_map.
  cbn [metadata_]. rewrite map_id.
  change (firstn 1000 (song :: songs)) with (song :: firstn 999 songs).
  reflexivity.
Qed.

Lemma emitted_results_load_reply_songs_witness :
  exists emitted,
    effects_of (ResultsAvailableSlot 1
                  (collect (fun song => mkResult song EmptyString)
                           [sample_song; sample_song]) constructed)
    = [emit_AddResults 1 emitted]
    /\ LoadTracks emitted
       = Some (mkMimeData (firstn 1000 [sample_song; sample_song])
                          (map url (firstn 1000 [sample_song; sample_song]))).
Proof.
  apply (emitted_results_load_reply_songs 1 [sample_song; sample_song]
           constructed).
  discriminate.
Defined.

(** ** More on the tokenizer and on matching *)

Lemma to_lower_idempotent c : to_lower (to_lower c) = to_lower c.
Proof.
  destruct c as [[] [] [] [] [] [] [] []]; reflexivity.
Qed.

Lemma lower_idempotent s : lower (lower s) = lower s.
Proof.
  induction s as [|c s IH]; simpl; [reflexivity|].
  rewrite to_lower_idempotent, IH. reflexivity.
Qed.

(** X17: [Matches] ignores case: folding the case of the tokens or of
    the string does not change its answer. *)
Theorem Matches_ignores_case :
  forall (tokens : list QString) (str : QString),
    Matches (map lower tokens) str = Matches tokens str
    /\ Matches tokens (lower str) = Matches tokens str.
Proof.
  intros tokens str. unfold Matches, QString_contains_ci.
  split.
  - induction tokens as [|tok tokens IH]; simpl; [reflexivity|].
    rewrite lower_idempotent, IH. reflexivity.
  - rewrite lower_idempotent. reflexivity.
Qed.

Lemma rev_onto_rev_onto w acc acc' :
  QString_rev_onto (QString_rev_onto w acc) acc'
  = QString_rev_onto acc (String.append w acc').
Proof.
  revert acc acc'. induction w as [|c w IH]; intros acc acc'; simpl;
    [reflexivity|].
  rewrite IH. reflexivity.
Qed.

Lemma split_go_word w :
  QString_all not_space w = true ->
  forall rest cur,
    split_go (String.append w rest) cur false
    = split_go rest (QString_rev_onto w cur) false.
Proof.
  induction w as [|c w IH]; intros Hw rest cur; simpl; [reflexivity|].
  simpl in Hw. apply andb_true_iff in Hw. destruct Hw as [Hc Hw].
  unfold not_space in Hc. apply negb_true_iff in Hc. rewrite Hc.
  apply IH. exact Hw.
Qed.

Lemma split_go_first_word w :
  w <> EmptyString -> QString_all not_space w = true ->
  forall rest in_run,
    split_go (String.append w rest) EmptyString in_run
    = split_go rest (QString_rev_onto w EmptyString) false.
Proof.
  intros Hne Hw rest in_run. destruct w as [|c w]; [contradiction|].
  simpl in Hw |- *. apply andb_true_iff in Hw. destruct Hw as [Hc Hw].
  unfold not_space in Hc. apply negb_true_iff in Hc. rewrite Hc.
  apply split_go_word. exact Hw.
Qed.

Lemma plain_word_parts w :
  plain_word w ->
  w <> EmptyString /\ QString_all not_space w = true
  /\ QString_all not_bracket_or_quote w = true
  /\ QString_all (fun a => negb (Ascii.eqb a colon_char)) w = true.
Proof.
  intros [Hne H]. split; [exact Hne|].
  split; [|split]; revert H; apply QString_all_impl; unfold plain_char;
    intros a Ha; apply andb_true_iff in Ha; destruct Ha as [Ha Hc];
    apply andb_true_iff in Ha; destruct Ha as [Hs Hb]; assumption.
Qed.

Lemma split_join_words words :
  words <> [] -> Forall plain_word words ->
  forall in_run,
    split_go (join_words words) EmptyString in_run = words.
Proof.
  induction words as [|w ws IH]; [contradiction|].
  intros _ Hall in_run. inversion Hall as [|x l Hw Hws]; subst.
  destruct (plain_word_parts w Hw) as (Hne & Hsp & _ & _).
  destruct ws as [|w' ws].
  - cbn [join_words]. rewrite <- (append_empty w) at 1.
    rewrite (split_go_first_word w Hne Hsp). cbn [split_go].
    rewrite rev_onto_rev_onto. cbn [QString_rev_onto].
    rewrite append_empty. reflexivity.
  - change (join_words (w :: w' :: ws))
      with (String.append w (String " "%char (join_words (w' :: ws)))).
    rewrite (split_go_first_word w Hne Hsp). cbn [split_go].
    change (isSpace " "%char) with true. cbv iota.
    rewrite rev_onto_rev_onto. cbn [QString_rev_onto].
    rewrite append_empty. f_equal. apply IH; [discriminate | exact Hws].
Qed.

Lemma indexOf_absent c w :
  QString_all (fun a => negb (Ascii.eqb a c)) w = true ->
  QString_indexOf c w = -1.
Proof.
  induction w as [|x w IH]; simpl; [reflexivity|].
  intros H. apply andb_true_iff in H. destruct H as [Hx Hw].
  apply negb_true_iff in Hx. rewrite Hx, (IH Hw). reflexivity.
Qed.

Lemma clean_token_plain_word w : plain_word w -> clean_token w = w.
Proof.
  intros Hw. destruct (plain_word_parts w Hw) as (_ & _ & Hb & Hc).
  rewrite clean_token_plain; rewrite (strip_plain _ Hb);
    [reflexivity | apply indexOf_absent; exact Hc].
Qed.

(** X18: words in, words out.  The tokens of words joined by single
    blanks are the words, when no word is empty or holds whitespace, a
    bracket, a double quote or a colon. *)
Theorem TokenizeQuery_of_joined_words :
  forall words : list QString,
    words <> [] -> Forall plain_word words ->
    TokenizeQuery (join_words words) = words.
Proof.
  intros words Hne Hall. unfold TokenizeQuery, QString_split_whitespace.
  rewrite (split_join_words words Hne Hall).
  rewrite <- (map_id words) at 2. apply map_ext_in.
  intros w Hin. rewrite Forall_forall in Hall.
  apply clean_token_plain_word, Hall, Hin.
Qed.

Lemma TokenizeQuery_of_joined_words_witness :
  TokenizeQuery "Daft Punk live"%string
  = ["Daft"%string; "Punk"%string; "live"%string].
Proof.
  apply (TokenizeQuery_of_joined_words
           ["Daft"%string; "Punk"%string; "live"%string]);
    [discriminate|].
  repeat constructor; discriminate.
Defined.

(** ** Scheduling and cancelling at once *)

Lemma cancel_scan_unique (m : QMap DelayedSearch) k e :
  qmap_wf m -> NoDup (origins m) -> qmap_find k m = Some e ->
  cancel_scan (id_ e) m = Some (k, qmap_erase k m).
Proof.
  intros Hwf Hnd Hf.
  destruct (cancel_scan (id_ e) m) as [[key rest]|] eqn:Hcs.
  - destruct (cancel_scan_some _ _ _ _ Hcs) as (_ & _ & Herase).
    destruct (Herase Hwf) as (-> & e' & Hf' & He').
    assert (key = k) as ->; [|reflexivity].
    apply (NoDup_origins_same_item _ key e' k e Hnd);
      [apply qmap_find_In; exact Hf' | apply qmap_find_In; exact Hf
      | exact He'].
  - apply cancel_scan_none in Hcs. exfalso. apply Hcs.
    eapply origins_find_In. exact Hf.
Qed.

Lemma qmap_erase_insert_fresh {V : Type} k (v : V) (m : QMap V) :
  qmap_find k m = None -> qmap_erase k (qmap_insert k v m) = m.
Proof.
  induction m as [|[k' v'] m IH]; simpl.
  - intros _. rewrite Z.eqb_refl. reflexivity.
  - destruct (Z.eqb_spec k k') as [->|Hne]; [discriminate|]. intros Hf.
    destruct (k <? k'); simpl.
    + rewrite Z.eqb_refl. reflexivity.
    + destruct (Z.eqb_spec k k'); [contradiction|]. rewrite (IH Hf).
      reflexivity.
Qed.

Lemma filter_not_mem key l :
  mem key l = false -> filter (fun t => negb (t =? key)) l = l.
Proof.
  induction l as [|x l IH]; simpl; [reflexivity|].
  rewrite (Z.eqb_sym key x). intros H. apply orb_false_iff in H.
  destruct H as [-> H]. simpl. rewrite (IH H). reflexivity.
Qed.

(** X19: in a run through the public interface, cancelling a search
    right after starting it undoes the start: the timer just started is
    killed, and the object is as it was before [SearchAsync], but for the
    id counter, which has moved on by one. *)
Theorem start_then_cancel_restores :
  forall (d : Z) (evs : list Event) (q : QString) (m : SearchBy) (tid : Z),
    let s := now (run d evs) in
    let a := SearchAsync q m tid s in
    let c := CancelSearch (value_of a) (state_of a) in
    forallb public_event evs = true ->
    Z.of_nat (List.length evs) + 1 < INT_MAX ->
    env_ok s (call_SearchAsync q m tid) = true ->
    effects_of c = [qt_killTimer tid]
    /\ state_of c = set_searches_next_id (searches_next_id_ s + 1) s.
Proof.
  intros d evs q m tid s a c Hpub Hlen Hok.
  assert (forallb public_event (evs ++ [call_SearchAsync q m tid]) = true)
    as Hpub' by (rewrite forallb_app, Hpub; reflexivity).
  assert (Z.of_nat (List.length (evs ++ [call_SearchAsync q m tid])) < INT_MAX)
    as Hlen' by (rewrite length_app; simpl List.length; lia).
  destruct (origins_inv_run d _ Hpub' Hlen') as (_ & Hnd & _).
  destruct (origins_inv_run d evs Hpub ltac:(lia)) as (Hb & _).
  rewrite transcript_length in Hb.
  pose proof (scheduler_inv_run d (evs ++ [call_SearchAsync q m tid]))
    as [Hwf' _].
  destruct (scheduler_inv_run d evs) as [Hwf Hact].
  rewrite run_now_snoc in Hnd, Hwf'. fold s in Hnd, Hwf', Hwf, Hact, Hb.
  unfold after_event in Hnd, Hwf'. cbn [delayed_searches_] in Hnd, Hwf'.
  simpl in Hok. apply negb_true_iff in Hok.
  assert (qmap_find tid (delayed_searches_ s) = None) as Hfresh.
  { destruct (qmap_find tid (delayed_searches_ s)) as [e|] eqn:F;
      [|reflexivity].
    rewrite (Hact _ _ F) in Hok. discriminate. }
  subst c a. rewrite SearchAsync_run.
  cbv beta iota delta [value_of state_of fst snd].
  rewrite CancelSearch_run. cbn [delayed_searches_].
  pose proof (cancel_scan_unique _ tid
                (mkDelayedSearch (searches_next_id_ s) q m) Hwf' Hnd
                (qmap_find_insert_same _ _ _)) as Hcs.
  cbn [id_] in Hcs. rewrite Hcs.
  cbv beta iota delta [effects_of state_of fst snd].
  cbn [searches_next_id_ art_searches_next_id_ pending_searches_
       pending_art_searches_ cover_loader_tasks_ pixmap_cache_ timers_].
  split; [reflexivity|].
  rewrite (qmap_erase_insert_fresh _ _ _ Hfresh).
  rewrite int_succ_small by (unfold INT_MAX in *; lia).
  assert (filter (fun t => negb (t =? tid)) (tid :: timers_ s) = timers_ s)
    as ->.
  { simpl. rewrite Z.eqb_refl. simpl. apply filter_not_mem. exact Hok. }
  reflexivity.
Qed.

Lemma start_then_cancel_restores_witness :
  let s := now (run (-1) [call_SearchAsync "daft"%string 0 10]) in
  let a := SearchAsync "daft punk"%string 0 11 s in
  state_of (CancelSearch (value_of a) (state_of a))
  = set_searches_next_id 3 s.
Proof.
  intros s a.
  exact (proj2 (start_then_cancel_restores (-1)
                  [call_SearchAsync "daft"%string 0 10]
                  "daft punk"%string 0 11 eq_refl eq_refl eq_refl)).
Defined.

(* ================================================================== *)
(** * The tokenizer, cut by cut *)

Lemma split_go_sep sp :
  QString_all isSpace sp = true ->
  forall rest,
    split_go (String.append sp rest) EmptyString true
    = split_go rest EmptyString true.
Proof.
  induction sp as [|c sp IH]; simpl; intros H rest; [reflexivity|].
  apply andb_true_iff in H. destruct H as [-> H]. apply IH. exact H.
Qed.

Lemma split_go_run sp :
  whitespace_run sp ->
  forall rest cur,
    split_go (String.append sp rest) cur false
    = QString_rev_onto cur EmptyString :: split_go rest EmptyString true.
Proof.
  intros [Hne H] rest cur. destruct sp as [|c sp]; [contradiction|].
  simpl in H |- *. apply andb_true_iff in H. destruct H as [-> H].
  rewrite (split_go_sep sp H). reflexivity.
Qed.

Lemma split_go_piece p :
  QString_all not_space p = true ->
  forall rest b,
    p <> EmptyString \/ b = false ->
    split_go (String.append p rest) EmptyString b
    = split_go rest (QString_rev_onto p EmptyString) false.
Proof.
  intros Hp rest b [Hne| ->].
  - apply split_go_first_word; assumption.
  - apply split_go_word. exact Hp.
Qed.

Lemma rev_onto_twice p :
  QString_rev_onto (QString_rev_onto p EmptyString) EmptyString = p.
Proof.
  rewrite rev_onto_rev_onto. cbn [QString_rev_onto]. apply append_empty.
Qed.

Lemma cut_at_runs_tail p p' ps sp ss :
  cut_at_runs (p :: p' :: ps) (sp :: ss) ->
  cut_at_runs (p' :: ps) ss
  /\ whitespace_run sp
  /\ QString_all not_space p = true
  /\ (ss <> [] -> p' <> EmptyString).
Proof.
  intros (Hlen & Hpieces & Hseps & Hinner).
  inversion Hpieces as [|x l Hp Hps]; subst.
  inversion Hseps as [|y l' Hsp Hss]; subst.
  simpl in Hlen. injection Hlen as Hlen.
  cbn [tl] in Hinner.
  split; [|split; [exact Hsp|split; [exact Hp|]]].
  - split; [simpl; f_equal; exact Hlen|]. split; [exact Hps|].
    split; [exact Hss|].
    cbn [tl]. destruct ps as [|p'' ps]; [constructor|].
    change (removelast (p' :: p'' :: ps))
      with (p' :: removelast (p'' :: ps)) in Hinner.
    inversion Hinner; assumption.
  - intros Hss'. destruct ps as [|p'' ps].
    + destruct ss; [contradiction | discriminate].
    + change (removelast (p' :: p'' :: ps))
        with (p' :: removelast (p'' :: ps)) in Hinner.
      inversion Hinner; assumption.
Qed.

(** Cutting what was put together gives the pieces back. *)
Lemma split_go_interleave seps :
  forall pieces b,
    cut_at_runs pieces seps ->
    (b = true -> seps <> [] -> hd EmptyString pieces <> EmptyString) ->
    split_go (interleave pieces seps) EmptyString b = pieces.
Proof.
  induction seps as [|sp ss IH]; intros pieces b Hcut Hb.
  - destruct Hcut as (Hlen & Hpieces & _ & _).
    destruct pieces as [|p [|p' ps]]; try discriminate.
    inversion Hpieces as [|x l Hp _]; subst. cbn [interleave].
    destruct p as [|c p]; [reflexivity|].
    rewrite <- (append_empty (String c p)) at 1.
    rewrite (split_go_piece _ Hp EmptyString b) by (left; discriminate).
    cbn [split_go]. rewrite rev_onto_twice. reflexivity.
  - destruct pieces as [|p [|p' ps]];
      try (destruct Hcut as (Hlen & _); discriminate).
    destruct (cut_at_runs_tail _ _ _ _ _ Hcut) as (Hcut' & Hsp & Hp & Hp').
    change (interleave (p :: p' :: ps) (sp :: ss))
      with (String.append p (String.append sp (interleave (p' :: ps) ss))).
    rewrite (split_go_piece _ Hp).
    + rewrite (split_go_run _ Hsp), rev_onto_twice. f_equal.
      apply IH; [exact Hcut'|]. intros _ Hss. exact (Hp' Hss).
    + destruct b; [left; apply Hb; [reflexivity | discriminate]
                  | right; reflexivity].
Qed.

(** Every string is its pieces put together with its runs of whitespace. *)
Lemma split_go_decomposes s :
  (forall cur,
      QString_all not_space cur = true ->
      exists seps,
        cut_at_runs (split_go s cur false) seps
        /\ String.append (QString_rev_onto cur EmptyString) s
           = interleave (split_go s cur false) seps)
  /\ (exists ws seps,
         QString_all isSpace ws = true
         /\ s = String.append ws (interleave (split_go s EmptyString true) seps)
         /\ cut_at_runs (split_go s EmptyString true) seps
         /\ (seps <> [] ->
             hd EmptyString (split_go s EmptyString true) <> EmptyString)).
Proof.
  induction s as [|c s [IH1 IH2]].
  - split.
    + intros cur Hcur. exists []. cbn [split_go interleave]. split.
      * split; [reflexivity|]. split; [|split; constructor].
        constructor; [apply rev_onto_all; auto | constructor].
      * apply append_empty.
    + exists EmptyString, []. cbn [split_go interleave].
      split; [reflexivity|]. split; [reflexivity|]. split.
      * split; [reflexivity|]. split; [|split; constructor].
        constructor; [reflexivity | constructor].
      * intros H. contradiction.
  - destruct (isSpace c) eqn:Hc.
    + destruct IH2 as (ws & seps & Hws & Heq & Hcut & Hhd).
      assert (split_go (String c s) EmptyString true
              = split_go s EmptyString true) as Et
          by (cbn [split_go]; rewrite Hc; reflexivity).
      split.
      * intros cur Hcur.
        assert (split_go (String c s) cur false
                = QString_rev_onto cur EmptyString
                    :: split_go s EmptyString true) as Ef
            by (cbn [split_go]; rewrite Hc; reflexivity).
        rewrite Ef. set (P := split_go s EmptyString true) in *.
        exists (String c ws :: seps).
        destruct Hcut as (Hlen & Hpieces & Hseps & Hinner).
        split.
        -- split; [simpl; rewrite Hlen; reflexivity|].
           split; [constructor; [apply rev_onto_all; auto | exact Hpieces]|].
           split.
           ++ constructor; [|exact Hseps]. split; [discriminate|].
              simpl. rewrite Hc, Hws. reflexivity.
           ++ cbn [tl]. destruct P as [|p0 [|p1 P']]; try discriminate.
              ** constructor.
              ** change (removelast (p0 :: p1 :: P'))
                   with (p0 :: removelast (p1 :: P')).
                 constructor; [|exact Hinner].
                 apply Hhd. destruct seps; discriminate.
        -- destruct P as [|p0 P']; [discriminate|].
           cbn [interleave]. cbn [interleave] in Heq.
           rewrite Heq at 1. reflexivity.
      * rewrite Et. exists (String c ws), seps.
        split; [simpl; rewrite Hc, Hws; reflexivity|].
        split; [simpl; rewrite <- Heq; reflexivity|].
        split; [exact Hcut | exact Hhd].
    + assert (forall cur b,
                 split_go (String c s) cur b = split_go s (String c cur) false)
        as E by (intros cur b; cbn [split_go]; rewrite Hc; reflexivity).
      assert (not_space c = true) as Hns by (unfold not_space; rewrite Hc; reflexivity).
      split.
      * intros cur Hcur. rewrite E.
        destruct (IH1 (String c cur)) as (seps & Hcut & Heq);
          [simpl; rewrite Hns, Hcur; reflexivity|].
        exists seps. split; [exact Hcut|]. rewrite <- Heq.
        cbn [QString_rev_onto]. rewrite (rev_onto_append cur (String c EmptyString)).
        rewrite append_assoc. reflexivity.
      * rewrite E.
        destruct (IH1 (String c EmptyString)) as (seps & Hcut & Heq);
          [simpl; rewrite Hns; reflexivity|].
        cbn [QString_rev_onto String.append] in Heq.
        exists EmptyString, seps.
        split; [reflexivity|]. split; [exact Heq|]. split; [exact Hcut|].
        intros Hseps Hhd.
        destruct Hcut as (_ & _ & Hruns & _).
        destruct (split_go s (String c EmptyString) false) as [|p0 P'];
          [discriminate|].
        destruct seps as [|sp ss]; [contradiction|].
        cbn [hd] in Hhd. subst p0. cbn [interleave String.append] in Heq.
        inversion Hruns as [|x l [Hne Hsp] _]; subst.
        destruct sp as [|x sp]; [contradiction|].
        simpl in Hsp. apply andb_true_iff in Hsp. destruct Hsp as [Hx _].
        simpl in Heq. injection Heq as Ecx _. subst x.
        rewrite Hc in Hx. discriminate.
Qed.

Lemma strip_is_filter tok : strip tok = QString_filter not_bracket_or_quote tok.
Proof.
  unfold strip, not_bracket_or_quote.
  induction tok as [|a tok IH]; [reflexivity|].
  cbn [QString_remove_char QString_filter].
  destruct (Ascii.eqb a lparen); cbn [negb andb QString_remove_char];
    [exact IH|].
  destruct (Ascii.eqb a rparen); cbn [negb andb QString_remove_char];
    [exact IH|].
  destruct (Ascii.eqb a dquote); cbn [negb andb]; [exact IH|].
  rewrite IH. reflexivity.
Qed.

Lemma clean_token_after_colon tok pre post :
  strip tok = String.append pre (String colon_char post) ->
  QString_all not_colon pre = true ->
  clean_token tok = post.
Proof.
  intros Hs Hpre. unfold clean_token. fold (strip tok). rewrite Hs.
  rewrite (indexOf_append_colon pre post (indexOf_absent _ _ Hpre)).
  destruct (Z.eqb_spec (QString_size pre) (-1)) as [C|C].
  - unfold QString_size in C. lia.
  - cbn [negb]. apply remove_field.
Qed.

(** C6, as amended: [TokenizeQuery] cuts the query at its maximal runs of
    whitespace and cleans every piece.  Every query is its pieces put
    together with its runs of whitespace, the pieces holding no whitespace
    and only the first and the last being possibly empty (the piece before
    a leading and after a trailing run); and whatever is put together in
    that way is cut into those very pieces, so that there is one token
    more than there are runs and never none.  Cleaning a piece removes
    every ( ) and double quote and nothing else; if what is left has a
    colon, everything up to and including its first colon goes, for any
    token; if it has none, nothing more changes.  The empty query yields
    the one empty token, and artist:Daft "Punk" yields Daft and Punk. *)
Theorem TokenizeQuery_splits_strips_drops_field :
  forall (query : QString) (pieces seps : list QString)
         (tok pre post tok2 : QString),
    cut_at_runs pieces seps ->
    strip tok = String.append pre (String colon_char post) ->
    QString_all not_colon pre = true ->
    QString_all not_colon (strip tok2) = true ->
    (exists seps0,
        cut_at_runs (QString_split_whitespace query) seps0
        /\ query = interleave (QString_split_whitespace query) seps0)
    /\ QString_split_whitespace (interleave pieces seps) = pieces
    /\ TokenizeQuery query = map clean_token (QString_split_whitespace query)
    /\ TokenizeQuery (interleave pieces seps) = map clean_token pieces
    /\ strip tok = QString_filter not_bracket_or_quote tok
    /\ clean_token tok = post
    /\ clean_token tok2 = strip tok2
    /\ List.length (TokenizeQuery query) = S (whitespace_runs query false)
    /\ QString_concat (QString_split_whitespace query)
       = QString_filter not_space query
    /\ Forall (fun piece => QString_all not_space piece = true)
              (QString_split_whitespace query)
    /\ Forall (fun t => QString_all not_bracket_or_quote t = true)
              (TokenizeQuery query)
    /\ TokenizeQuery EmptyString = [EmptyString]
    /\ TokenizeQuery daft_punk_query = ["Daft"%string; "Punk"%string].
Proof.
  intros query pieces seps tok pre post tok2 Hcut Htok Hpre Htok2.
  assert (QString_split_whitespace (interleave pieces seps) = pieces) as Hsplit.
  { unfold QString_split_whitespace. apply split_go_interleave; [exact Hcut|].
    discriminate. }
  split.
  { destruct (proj1 (split_go_decomposes query) EmptyString eq_refl)
      as (seps0 & Hc & Heq).
    exists seps0. split; [exact Hc | exact Heq]. }
  split; [exact Hsplit|]. split; [reflexivity|].
  split; [unfold TokenizeQuery; rewrite Hsplit; reflexivity|].
  split; [apply strip_is_filter|].
  split; [exact (clean_token_after_colon _ _ _ Htok Hpre)|].
  split; [apply clean_token_plain, indexOf_absent; exact Htok2|].
  unfold TokenizeQuery, QString_split_whitespace.
  split; [rewrite length_map; apply split_go_length|].
  split; [exact (proj1 (split_go_concat query) EmptyString)|].
  split; [apply split_go_no_space; reflexivity|].
  split; [apply Forall_map, Forall_forall; intros t _; apply clean_token_clean|].
  split; reflexivity.
Qed.

Lemma TokenizeQuery_splits_strips_drops_field_witness :
  TokenizeQuery " genre:(rock)  artist:Daft:Punk "%string
  = [EmptyString; "rock"%string; "Daft:Punk"%string; EmptyString]
  /\ clean_token "(artist):Daft:Punk"%string = "Daft:Punk"%string
  /\ clean_token "(Punk)"%string = "Punk"%string.
Proof.
  assert (cut_at_runs
            [EmptyString; "genre:(rock)"%string; "artist:Daft:Punk"%string;
             EmptyString]
            [" "%string; "  "%string; " "%string]) as Hcut.
  { split; [reflexivity|]. split; [repeat constructor|].
    split; repeat constructor; discriminate. }
  pose proof (TokenizeQuery_splits_strips_drops_field
                " genre:(rock)  artist:Daft:Punk "%string
                [EmptyString; "genre:(rock)"%string; "artist:Daft:Punk"%string;
                 EmptyString]
                [" "%string; "  "%string; " "%string]
                "(artist):Daft:Punk"%string "artist"%string "Daft:Punk"%string
                "(Punk)"%string Hcut eq_refl eq_refl eq_refl) as H.
  destruct H as (_ & _ & _ & H4 & _ & H6 & H7 & _).
  split; [exact H4|]. split; [exact H6 | exact H7].
Defined.

(* ================================================================== *)
(** * Scheduling, whoever schedules *)



(** C4, the claim as stated fails.  The slot [DoSearchAsync] has scheduled
    origin 1 twice; [CancelSearch(1)], called before either timer has
    fired, kills timer 10 and removes its delayed search only, and when
    timer 11 fires origin 1 is dispatched to the backend. *)
Lemma cancel_leaves_second_search_of_origin :
  let before := [slot_DoSearchAsync 1 "daft"%string 0 10;
                 slot_DoSearchAsync 1 "daft punk"%string 0 11] in
  let evs := before ++ [call_CancelSearch 1; qt_timerEvent 10 100;
                        qt_timerEvent 11 101] in
  env_respected (run (-1) evs) = true
  /\ dispatched_origins (transcript (run (-1) before)) = []
  /\ effects_of (CancelSearch 1 (now (run (-1) before))) = [qt_killTimer 10]
  /\ dispatches (all_effects (transcript (run (-1) evs))) = [(1, 101)]
  /\ In 1 (dispatched_origins (transcript (run (-1) evs))).
Proof. repeat split. left. reflexivity. Qed.

(* ================================================================== *)
(** * A timer after its dispatch *)

Lemma spent_timer_after_event tid ev s :
  qmap_wf (delayed_searches_ s) ->
  env_ok s ev = true ->
  spent_timer tid s -> spent_timer tid (after_event ev s).
Proof.
  intros Hwf Hok [Hact Hnone]. unfold spent_timer.
  assert (forall t x,
             mem t (timers_ s) = false ->
             mem tid (t :: timers_ s) = true
             /\ qmap_find tid (qmap_insert t x (delayed_searches_ s)) = None)
    as Hins.
  { intros t x Ht. assert (tid <> t) as Hne by (intros ->; congruence).
    rewrite mem_cons, Hact, orb_true_r.
    rewrite qmap_find_insert_other by exact Hne. split; [reflexivity | exact Hnone]. }
  destruct ev as [q m t | i q m t | i | t sid | sid sgs | i e | r l | l im];
    unfold after_event.
  - simpl in Hok. apply negb_true_iff in Hok.
    cbn [timers_ delayed_searches_]. apply Hins. exact Hok.
  - simpl in Hok. apply negb_true_iff in Hok.
    cbn [timers_ delayed_searches_]. apply Hins. exact Hok.
  - destruct (cancel_scan i (delayed_searches_ s)) as [[key rest]|] eqn:Hcs;
      [|split; assumption].
    destruct (cancel_scan_some _ _ _ _ Hcs) as (_ & _ & Herase).
    destruct (Herase Hwf) as (-> & x & Hx & _).
    assert (tid <> key) as Hne by (intros ->; congruence).
    cbn [timers_ delayed_searches_]. split.
    + apply mem_filter_other; assumption.
    + rewrite qmap_find_erase_other by exact Hne. exact Hnone.
  - destruct (qmap_find t (delayed_searches_ s)) as [it|] eqn:F;
      [|split; assumption].
    cbn [timers_ delayed_searches_]. split; [exact Hact|].
    assert (tid <> t) as Hne by (intros ->; congruence).
    rewrite qmap_find_erase_other by exact Hne. exact Hnone.
  - split; assumption.
  - split; assumption.
  - split; assumption.
  - destruct (qmap_find l (cover_loader_tasks_ s)); split; assumption.
Qed.

Lemma spent_timer_stays d evs1 evs2 tid :
  env_respected (run d (evs1 ++ evs2)) = true ->
  spent_timer tid (now (run d evs1)) ->
  spent_timer tid (now (run d (evs1 ++ evs2))).
Proof.
  induction evs2 as [|ev evs2 IH] using rev_ind.
  - rewrite app_nil_r. intros _ H. exact H.
  - rewrite app_assoc, env_respected_snoc, andb_true_iff, run_now_snoc.
    intros [Henv Hok] H.
    apply spent_timer_after_event; [|exact Hok | exact (IH Henv H)].
    exact (proj1 (scheduler_inv_run d (evs1 ++ evs2))).
Qed.

(** X5: a timer with a delayed search dispatches it once.  [timerEvent]
    sends the search to the backend, stores its pending state and removes
    the delayed search, but leaves the timer running; and, Qt handing out
    no id of a timer that is still active, through whatever events follow
    the timer stays active and without a delayed search, so that every
    later event of that timer does nothing. *)
Theorem timer_dispatches_once_and_keeps_running :
  forall (d : Z) (evs1 evs2 : list Event) (tid sid sid2 : Z)
         (e : DelayedSearch),
    let s := now (run d evs1) in
    let b := timerEvent tid sid s in
    let later := now (run d (evs1 ++ qt_timerEvent tid sid :: evs2)) in
    env_respected (run d (evs1 ++ qt_timerEvent tid sid :: evs2)) = true ->
    qmap_find tid (delayed_searches_ s) = Some e ->
    effects_of b = [backend_Search (id_ e) (query_ e) (searchby_ e) sid]
    /\ qmap_find sid (pending_searches_ (state_of b))
       = Some (mkPendingState (id_ e) (TokenizeQuery (query_ e)))
    /\ qmap_contains tid (delayed_searches_ (state_of b)) = false
    /\ timers_ (state_of b) = timers_ s
    /\ mem tid (timers_ (state_of b)) = true
    /\ timerEvent tid sid2 (state_of b) = (tt, state_of b, [])
    /\ mem tid (timers_ later) = true
    /\ qmap_contains tid (delayed_searches_ later) = false
    /\ timerEvent tid sid2 later = (tt, later, []).
Proof.
  intros d evs1 evs2 tid sid sid2 e s b later Henv Hf.
  destruct (scheduler_inv_run d evs1) as [Hwf Hact]. fold s in Hwf, Hact.
  assert (qmap_find tid (qmap_erase tid (delayed_searches_ s)) = None) as Hgone
      by (apply qmap_find_erase_same; exact Hwf).
  assert (state_of b = now (run d (evs1 ++ [qt_timerEvent tid sid]))) as Hb
      by (rewrite run_now_snoc; subst b; rewrite <- (step_state d); reflexivity).
  assert (spent_timer tid later) as [Hl1 Hl2].
  { subst later.
    replace (evs1 ++ qt_timerEvent tid sid :: evs2)
      with ((evs1 ++ [qt_timerEvent tid sid]) ++ evs2) in *
      by (rewrite <- app_assoc; reflexivity).
    apply spent_timer_stays; [exact Henv|].
    rewrite <- Hb. subst b. rewrite timerEvent_run, Hf. split.
    - exact (Hact _ _ Hf).
    - exact Hgone. }
  subst b. rewrite timerEvent_run, Hf.
  cbv beta iota zeta delta [state_of effects_of fst snd].
  cbn [delayed_searches_ pending_searches_ timers_].
  split; [reflexivity|]. split; [apply qmap_find_insert_same|].
  split; [apply qmap_contains_false; exact Hgone|].
  split; [reflexivity|]. split; [exact (Hact _ _ Hf)|].
  split; [rewrite timerEvent_run; cbn [delayed_searches_]; rewrite Hgone;
          reflexivity|].
  split; [exact Hl1|]. split; [apply qmap_contains_false; exact Hl2|].
  rewrite timerEvent_run, Hl2. reflexivity.
Qed.

Lemma timer_dispatches_once_and_keeps_running_witness :
  let evs1 := [call_SearchAsync "daft"%string 0 10] in
  let evs2 := [call_SearchAsync "punk"%string 0 11; call_CancelSearch 2;
               service_SearchResults 100 [sample_song]] in
  let later := now (run (-1) (evs1 ++ qt_timerEvent 10 100 :: evs2)) in
  effects_of (timerEvent 10 100 (now (run (-1) evs1)))
  = [backend_Search 1 "daft"%string 0 100]
  /\ mem 10 (timers_ later) = true
  /\ timerEvent 10 101 later = (tt, later, []).
Proof.
  intros evs1 evs2 later.
  pose proof (timer_dispatches_once_and_keeps_running (-1) evs1 evs2
                10 100 101 (mkDelayedSearch 1 "daft"%string 0)
                eq_refl eq_refl) as H.
  cbv zeta in H. destruct H as (H1 & _ & _ & _ & _ & _ & H7 & _ & H9).
  split; [exact H1|]. split; [exact H7 | exact H9].
Defined.

(* ================================================================== *)
(** * Searches started through SearchAsync finish once *)














